(** * PotentialPair: the generic pair-potential force engine of HOOMD-blue

    A shallow embedding of [src/pair/PotentialPair.h] and a verification of
    its per-pair arithmetic, its type-pair tables and its error paths.

    Conventions of the embedding.
    - [Scalar] is the C++ floating-point type of the engine.  It is embedded
      as the exact rationals [Q]: every formula is the one of the source,
      evaluated without rounding.  Equalities that hold by construction are
      stated with Leibniz equality, derived algebraic identities with [==].
      The arithmetic of one pair (lines 390-447) is embedded a second time
      over IEEE binary64 numbers, in [Binary64], where rounding and
      underflow show.
    - [unsigned int] values are only used as array indices and compared; they
      are embedded as [nat].
    - Arrays ([GPUArray], the per-particle arrays) are lists read with [!!!]
      and written with [<[i:=v]>].  An out-of-range access is undefined
      behaviour in the source (guarded by [assert] only); in the embedding an
      out-of-range read yields the default and an out-of-range write does
      nothing.
    - A member function that may throw is a computation in the monad [M]
      that returns the object together with either the exception or the
      result. *)

From Stdlib Require Import QArith Lqa Lia String.
From Stdlib Require Floats.
From stdpp Require Import base list.

Abbreviation Scalar := Q (only parsing).

#[global] Instance Scalar_inhabited : Inhabited Q := populate 0%Q.

(** ** Comparisons on [Scalar] as the source writes them *)

Definition Scalar_ge (a b : Scalar) : bool := Qle_bool b a.
Definition Scalar_lt (a b : Scalar) : bool := negb (Qle_bool b a).
Definition Scalar_gt (a b : Scalar) : bool := Scalar_lt b a.

(** ** Index2DUpperTriangular *)

(** Modelled from the spec: the class [Index2DUpperTriangular] of
    [Index1D.h] is not among the sources.  The spec asks for a canonical
    upper-triangular index over two bounded integers in which (a,b) and
    (b,a) share a slot, for a table of [N*(N+1)/2] entries: the arguments are
    ordered first, then the rows of the triangle are laid out one after the
    other. *)
Record Index2DUpperTriangular := mkIndex2D { m_w : nat; m_term : nat }.

(** Modelled from the spec: the constructor of [Index2DUpperTriangular]
    (not among the sources), for a triangle of width [w]. *)
Definition Index2DUpperTriangular_ctor (w : nat) : Index2DUpperTriangular :=
  {| m_w := w; m_term := 2 * w - 1 |}.

(** Modelled from the spec: [operator()] of [Index2DUpperTriangular] (not
    among the sources), the canonical slot of the unordered pair: the larger
    index selects the position within the row of the smaller one. *)
Definition Index2D_call (idx : Index2DUpperTriangular) (i j : nat) : nat :=
  let '(i, j) := if (i <? j)%nat then (j, i) else (i, j) in
  j * (m_term idx - j) / 2 + i.

(** Modelled from the spec: [getNumElements] of [Index2DUpperTriangular]
    (not among the sources), [N*(N+1)/2] slots for [N] types. *)
Definition getNumElements (idx : Index2DUpperTriangular) : nat :=
  m_w idx * (m_w idx + 1) / 2.

(** ** External collaborators *)

(** The simulation box: [box.xlo], [box.xhi], ... as read by the engine. *)
Record BoxDim := mkBoxDim {
  xlo : Scalar; xhi : Scalar;
  ylo : Scalar; yhi : Scalar;
  zlo : Scalar; zhi : Scalar
}.

(** [ParticleDataArraysConst]: the read-only per-particle arrays. *)
Module Arrays.
Record t := mk {
  nparticles : nat;
  x : list Scalar;
  y : list Scalar;
  z : list Scalar;
  type : list nat;
  diameter : list Scalar;
  charge : list Scalar
}.
End Arrays.

Record ParticleData := mkParticleData {
  getNTypes : nat;
  acquireReadOnly : Arrays.t;
  getBox : BoxDim
}.

Inductive storageMode := half | full.

Definition storageMode_eqb (a b : storageMode) : bool :=
  match a, b with
  | half, half | full, full => true
  | _, _ => false
  end.

(** The neighbour list.  [getList nl t] is the list the object holds once
    [compute(t)] has brought it up to date. *)
Record NeighborList := mkNeighborList {
  getStorageMode : storageMode;
  getList : nat -> list (list nat)
}.

(** ** The evaluator (template parameter of the engine)

    The members the engine uses: [param_type], the static [getName],
    [needsDiameter] and [needsCharge], the constructor from
    [(rsq, rcutsq, param)], [setDiameter], [setCharge] and
    [evalForceAndEnergy], which receives the two output references (their
    values on entry) and the shift flag and leaves the outputs behind.
    [param_zero] is the content of a freshly allocated [GPUArray] slot. *)
Class evaluator := {
  param_type : Type;
  param_zero : param_type;
  eval_obj : Type;
  getName : string;
  needsDiameter : bool;
  needsCharge : bool;
  eval_ctor : Scalar -> Scalar -> param_type -> eval_obj;
  setDiameter : Scalar -> Scalar -> eval_obj -> eval_obj;
  setCharge : Scalar -> Scalar -> eval_obj -> eval_obj;
  evalForceAndEnergy : eval_obj -> Scalar -> Scalar -> bool -> Scalar * Scalar
}.

#[global] Instance param_type_inhabited `{evaluator} : Inhabited param_type :=
  populate param_zero.

(** ** Exceptions and the monad of member functions *)

Inductive exn := runtime_error (what : string).

Inductive energyShiftMode := no_shift | shift | xplor.

Definition energyShiftMode_eqb (a b : energyShiftMode) : bool :=
  match a, b with
  | no_shift, no_shift | shift, shift | xplor, xplor => true
  | _, _ => false
  end.

(** The per-particle output arrays of the base class [ForceCompute]. *)
Record ForceCompute := mkForceCompute {
  m_fx : list Scalar;
  m_fy : list Scalar;
  m_fz : list Scalar;
  m_pe : list Scalar;
  m_virial : list Scalar
}.

Section Engine.
Context `{EV : evaluator}.

Record PotentialPair := mkPotentialPair {
  m_pdata : ParticleData;
  m_nlist : NeighborList;
  m_shift_mode : energyShiftMode;
  m_typpair_idx : Index2DUpperTriangular;
  m_rcutsq : list Scalar;
  m_ronsq : list Scalar;
  m_params : list param_type;
  m_prof_name : string;
  m_log_name : string;
  m_force : ForceCompute
}.

Definition M (A : Type) : Type := PotentialPair -> PotentialPair * (exn + A).

Definition ret {A} (a : A) : M A := fun self => (self, inr a).
Definition throw {A} (e : exn) : M A := fun self => (self, inl e).
Definition bind {A B} (m : M A) (k : A -> M B) : M B :=
  fun self =>
    match m self with
    | (self', inl e) => (self', inl e)
    | (self', inr a) => k a self'
    end.
Definition this : M PotentialPair := fun self => (self, inr self).
Definition assign (f : PotentialPair -> PotentialPair) : M unit :=
  fun self => (f self, inr tt).

Notation "x <- m ;; k" := (bind m (fun x => k))
  (at level 100, m at next level, right associativity).

Definition set_m_params (v : list param_type) (p : PotentialPair) :=
  mkPotentialPair (m_pdata p) (m_nlist p) (m_shift_mode p) (m_typpair_idx p)
    (m_rcutsq p) (m_ronsq p) v (m_prof_name p) (m_log_name p) (m_force p).
Definition set_m_rcutsq (v : list Scalar) (p : PotentialPair) :=
  mkPotentialPair (m_pdata p) (m_nlist p) (m_shift_mode p) (m_typpair_idx p)
    v (m_ronsq p) (m_params p) (m_prof_name p) (m_log_name p) (m_force p).
Definition set_m_ronsq (v : list Scalar) (p : PotentialPair) :=
  mkPotentialPair (m_pdata p) (m_nlist p) (m_shift_mode p) (m_typpair_idx p)
    (m_rcutsq p) v (m_params p) (m_prof_name p) (m_log_name p) (m_force p).
Definition set_m_shift_mode (v : energyShiftMode) (p : PotentialPair) :=
  mkPotentialPair (m_pdata p) (m_nlist p) v (m_typpair_idx p)
    (m_rcutsq p) (m_ronsq p) (m_params p) (m_prof_name p) (m_log_name p)
    (m_force p).
Definition set_m_force (v : ForceCompute) (p : PotentialPair) :=
  mkPotentialPair (m_pdata p) (m_nlist p) (m_shift_mode p) (m_typpair_idx p)
    (m_rcutsq p) (m_ronsq p) (m_params p) (m_prof_name p) (m_log_name p) v.

(** ** Construction *)

(** The constructor.  The [GPUArray]s come zero-filled.  The base-class
    constructor is not among the sources: following the data model of the
    specification, the output arrays hold one zero entry per particle. *)
Definition PotentialPair_ctor (pdata : ParticleData) (nlist : NeighborList)
  : PotentialPair :=
  let ntypes := getNTypes pdata in
  let typpair_idx := Index2DUpperTriangular_ctor ntypes in
  let n := getNumElements typpair_idx in
  let N := Arrays.nparticles (acquireReadOnly pdata) in
  {| m_pdata := pdata;
     m_nlist := nlist;
     m_shift_mode := no_shift;
     m_typpair_idx := typpair_idx;
     m_rcutsq := replicate n 0%Q;
     m_ronsq := replicate n 0%Q;
     m_params := replicate n param_zero;
     m_prof_name := String.append "Pair " getName;
     m_log_name := String.append "pair_" (String.append getName "_energy");
     m_force := {| m_fx := replicate N 0%Q; m_fy := replicate N 0%Q;
                   m_fz := replicate N 0%Q; m_pe := replicate N 0%Q;
                   m_virial := replicate N 0%Q |} |}.

(** ** Configuration *)

Definition setParams (typ1 typ2 : nat) (param : param_type) : M unit :=
  self <- this;;
  if (getNTypes (m_pdata self) <=? typ1)%nat
     || (getNTypes (m_pdata self) <=? typ2)%nat
  then throw (runtime_error "Error setting parameters in PotentialPair")
  else assign (fun self =>
         set_m_params
           (<[Index2D_call (m_typpair_idx self) typ1 typ2 := param]>
              (m_params self)) self).

Definition setRcut (typ1 typ2 : nat) (rcut : Scalar) : M unit :=
  self <- this;;
  if (getNTypes (m_pdata self) <=? typ1)%nat
     || (getNTypes (m_pdata self) <=? typ2)%nat
  then throw (runtime_error "Error setting parameters in PotentialPair")
  else assign (fun self =>
         set_m_rcutsq
           (<[Index2D_call (m_typpair_idx self) typ1 typ2 := (rcut * rcut)%Q]>
              (m_rcutsq self)) self).

Definition setRon (typ1 typ2 : nat) (ron : Scalar) : M unit :=
  self <- this;;
  if (getNTypes (m_pdata self) <=? typ1)%nat
     || (getNTypes (m_pdata self) <=? typ2)%nat
  then throw (runtime_error "Error setting parameters in PotentialPair")
  else assign (fun self =>
         set_m_ronsq
           (<[Index2D_call (m_typpair_idx self) typ1 typ2 := (ron * ron)%Q]>
              (m_ronsq self)) self).

Definition setShiftMode (mode : energyShiftMode) : M unit :=
  assign (set_m_shift_mode mode).

(** Reads of the three tables for a type pair, as [computeForces] does. *)
Definition get_params (self : PotentialPair) (typ1 typ2 : nat) : param_type :=
  m_params self !!! Index2D_call (m_typpair_idx self) typ1 typ2.
Definition get_rcutsq (self : PotentialPair) (typ1 typ2 : nat) : Scalar :=
  m_rcutsq self !!! Index2D_call (m_typpair_idx self) typ1 typ2.
Definition get_ronsq (self : PotentialPair) (typ1 typ2 : nat) : Scalar :=
  m_ronsq self !!! Index2D_call (m_typpair_idx self) typ1 typ2.

(** ** The hot loop of [computeForces] *)

(** Periodic boundary conditions on one axis: [d] is the raw offset, [lo] and
    [hi] the box bounds on that axis and [L] the precalculated box length. *)
Definition min_image (lo hi L d : Scalar) : Scalar :=
  if Scalar_ge d hi then (d - L)%Q
  else if Scalar_lt d lo then (d + L)%Q
  else d.

Record separation := mkSeparation { dx : Scalar; dy : Scalar; dz : Scalar }.

(** [dr_ji] after imaging, from the two positions. *)
Definition pair_separation (box : BoxDim) (xi yi zi xj yj zj : Scalar)
  : separation :=
  let Lx := (xhi box - xlo box)%Q in
  let Ly := (yhi box - ylo box)%Q in
  let Lz := (zhi box - zlo box)%Q in
  {| dx := min_image (xlo box) (xhi box) Lx (xi - xj)%Q;
     dy := min_image (ylo box) (yhi box) Ly (yi - yj)%Q;
     dz := min_image (zlo box) (zhi box) Lz (zi - zj)%Q |}.

Definition rsq_of (d : separation) : Scalar :=
  (dx d * dx d + dy d * dy d + dz d * dz d)%Q.

(** The flag handed to the evaluator. *)
Definition energy_shift (mode : energyShiftMode) (ronsq rcutsq : Scalar)
  : bool :=
  match mode with
  | shift => true
  | xplor => if Scalar_gt ronsq rcutsq then true else false
  | no_shift => false
  end.

(** The evaluator object as the loop prepares it for one pair.  The second
    setter call passes [di] and [dj], as the source does. *)
Definition make_eval (rsq rcutsq : Scalar) (param : param_type)
  (di dj qi qj : Scalar) : eval_obj :=
  let eval := eval_ctor rsq rcutsq param in
  let eval := if needsDiameter then setDiameter di dj eval else eval in
  let eval := if needsCharge then setCharge di dj eval else eval in
  eval.

(** The denominator of the XPLOR window. *)
Definition xplor_denom (rcutsq ronsq : Scalar) : Scalar :=
  ((rcutsq - ronsq) * (rcutsq - ronsq) * (rcutsq - ronsq))%Q.

(** XPLOR smoothing of a raw [(force_divr, pair_eng)]. *)
Definition xplor_smoothing (rsq rcutsq ronsq : Scalar)
  (force_divr pair_eng : Scalar) : Scalar * Scalar :=
  let old_pair_eng := pair_eng in
  let old_force_divr := force_divr in
  let xplor_denom_inv := (1 / xplor_denom rcutsq ronsq)%Q in
  let rsq_minus_r_cut_sq := (rsq - rcutsq)%Q in
  let s := (rsq_minus_r_cut_sq * rsq_minus_r_cut_sq *
            (rcutsq + 2 * rsq - 3 * ronsq) * xplor_denom_inv)%Q in
  let ds_dr_divr :=
    (12 * (rsq - ronsq) * rsq_minus_r_cut_sq * xplor_denom_inv)%Q in
  let pair_eng := (old_pair_eng * s)%Q in
  let force_divr := (s * old_force_divr - ds_dr_divr * old_pair_eng)%Q in
  (force_divr, pair_eng).

(** What one pair within the cutoff yields.  [divisors] records the
    denominators of the divisions that were executed for the pair. *)
Record pair_result := mkPairResult {
  force_divr : Scalar;
  pair_eng : Scalar;
  divisors : list Scalar
}.

(** Lines 412-447: evaluate, then modify the potential for xplor shifting. *)
Definition pair_interaction (mode : energyShiftMode)
  (rsq rcutsq ronsq : Scalar) (param : param_type) (di dj qi qj : Scalar)
  : pair_result :=
  let eval := make_eval rsq rcutsq param di dj qi qj in
  let '(force_divr, pair_eng) :=
    evalForceAndEnergy eval 0%Q 0%Q (energy_shift mode ronsq rcutsq) in
  if energyShiftMode_eqb mode xplor then
    if Scalar_ge rsq ronsq then
      let '(force_divr, pair_eng) :=
        xplor_smoothing rsq rcutsq ronsq force_divr pair_eng in
      mkPairResult force_divr pair_eng [xplor_denom rcutsq ronsq]
    else mkPairResult force_divr pair_eng []
  else mkPairResult force_divr pair_eng [].

(** The scalars of particle [i] kept in locals by the outer loop. *)
Record locals := mkLocals {
  fxi : Scalar; fyi : Scalar; fzi : Scalar; pei : Scalar; viriali : Scalar
}.

Record loop_state := mkLoopState {
  acc_i : locals;
  out : ForceCompute;
  executed_divisions : list Scalar
}.

(** [ronsq] as the loop reads it: the table is consulted in xplor mode only. *)
Definition read_ronsq (self : PotentialPair) (typei typej : nat) : Scalar :=
  if energyShiftMode_eqb (m_shift_mode self) xplor
  then get_ronsq self typei typej else 0%Q.

(** The body of the loop over the neighbours of particle [i]. *)
Definition pair_body (self : PotentialPair) (third_law : bool)
  (arrays : Arrays.t) (box : BoxDim)
  (xi yi zi : Scalar) (typei : nat) (di qi : Scalar)
  (st : loop_state) (j : nat) : loop_state :=
  let d := pair_separation box xi yi zi
             (Arrays.x arrays !!! j) (Arrays.y arrays !!! j)
             (Arrays.z arrays !!! j) in
  let typej := Arrays.type arrays !!! j in
  let dj := if needsDiameter then Arrays.diameter arrays !!! j else 0%Q in
  let qj := if needsCharge then Arrays.charge arrays !!! j else 0%Q in
  let rsq := rsq_of d in
  let param := get_params self typei typej in
  let rcutsq := get_rcutsq self typei typej in
  let ronsq := read_ronsq self typei typej in
  if Scalar_lt rsq rcutsq then
    let r := pair_interaction (m_shift_mode self) rsq rcutsq ronsq param
               di dj qi qj in
    let pair_virial := ((1 # 6) * rsq * force_divr r)%Q in
    let a := acc_i st in
    let a' := {| fxi := (fxi a + dx d * force_divr r)%Q;
                 fyi := (fyi a + dy d * force_divr r)%Q;
                 fzi := (fzi a + dz d * force_divr r)%Q;
                 pei := (pei a + pair_eng r * (1 # 2))%Q;
                 viriali := (viriali a + pair_virial)%Q |} in
    let f := out st in
    let f' :=
      if third_law then
        {| m_fx := <[j := (m_fx f !!! j - dx d * force_divr r)%Q]> (m_fx f);
           m_fy := <[j := (m_fy f !!! j - dy d * force_divr r)%Q]> (m_fy f);
           m_fz := <[j := (m_fz f !!! j - dz d * force_divr r)%Q]> (m_fz f);
           m_pe := <[j := (m_pe f !!! j + pair_eng r * (1 # 2))%Q]> (m_pe f);
           m_virial :=
             <[j := (m_virial f !!! j + pair_virial)%Q]> (m_virial f) |}
      else f in
    mkLoopState a' f' (executed_divisions st ++ divisors r)
  else st.

(** The body of the loop over the particles. *)
Definition particle_body (self : PotentialPair) (third_law : bool)
  (full_list : list (list nat)) (arrays : Arrays.t) (box : BoxDim)
  (acc : ForceCompute * list Scalar) (i : nat) : ForceCompute * list Scalar :=
  let xi := Arrays.x arrays !!! i in
  let yi := Arrays.y arrays !!! i in
  let zi := Arrays.z arrays !!! i in
  let typei := Arrays.type arrays !!! i in
  let di := if needsDiameter then Arrays.diameter arrays !!! i else 0%Q in
  let qi := if needsCharge then Arrays.charge arrays !!! i else 0%Q in
  let list := full_list !!! i in
  let st := foldl (pair_body self third_law arrays box xi yi zi typei di qi)
              (mkLoopState (mkLocals 0 0 0 0 0) (fst acc) (snd acc)) list in
  let a := acc_i st in
  let f := out st in
  ({| m_fx := <[i := (m_fx f !!! i + fxi a)%Q]> (m_fx f);
      m_fy := <[i := (m_fy f !!! i + fyi a)%Q]> (m_fy f);
      m_fz := <[i := (m_fz f !!! i + fzi a)%Q]> (m_fz f);
      m_pe := <[i := (m_pe f !!! i + pei a)%Q]> (m_pe f);
      m_virial := <[i := (m_virial f !!! i + viriali a)%Q]> (m_virial f) |},
   executed_divisions st).

(** [memset(p, 0, sizeof(Scalar)*n)] on an output array. *)
Definition memset0 (n : nat) (l : list Scalar) : list Scalar :=
  replicate (n `min` length l) 0%Q ++ drop n l.

(** [computeForces], with the divisions it executed. *)
Definition computeForces_run (timestep : nat) (self : PotentialPair)
  : ForceCompute * list Scalar :=
  let third_law := storageMode_eqb (getStorageMode (m_nlist self)) half in
  let full_list := getList (m_nlist self) timestep in
  let arrays := acquireReadOnly (m_pdata self) in
  let box := getBox (m_pdata self) in
  let n := Arrays.nparticles arrays in
  let f := m_force self in
  let f0 := {| m_fx := memset0 n (m_fx f); m_fy := memset0 n (m_fy f);
               m_fz := memset0 n (m_fz f); m_pe := memset0 n (m_pe f);
               m_virial := memset0 n (m_virial f) |} in
  foldl (particle_body self third_law full_list arrays box) (f0, [])
    (seq 0 n).

Definition computeForces (timestep : nat) : M unit :=
  assign (fun self => set_m_force (fst (computeForces_run timestep self)) self).

(** ** Logging *)

(** Modelled from the spec: [ForceCompute::compute] belongs to the base
    class, which is not among the sources.  It brings the output arrays up
    to date for the timestep by running [computeForces]. *)
Definition compute (timestep : nat) : M unit := computeForces timestep.

(** Modelled from the spec: [ForceCompute::calcEnergySum], of the same base
    class, is the sum of all particles' potential-energy accumulators. *)
Definition calcEnergySum : M Scalar :=
  self <- this;;
  ret (foldl Qplus 0%Q
         (take (Arrays.nparticles (acquireReadOnly (m_pdata self)))
               (m_pe (m_force self)))).

Definition getProvidedLogQuantities : M (list string) :=
  self <- this;;
  ret [m_log_name self].

Definition getLogValue (quantity : string) (timestep : nat) : M Scalar :=
  self <- this;;
  if String.eqb quantity (m_log_name self) then
    _ <- compute timestep;;
    calcEnergySum
  else throw (runtime_error "Error getting log value").

End Engine.

(** ** Evaluators and systems used to run the engine *)

(** The trivial law: force_divr = 2 and pair_eng = -1 whatever the input. *)
Definition trivial_law : evaluator := {|
  param_type := unit;
  param_zero := tt;
  eval_obj := unit;
  getName := "trivial";
  needsDiameter := false;
  needsCharge := false;
  eval_ctor := fun _ _ _ => tt;
  setDiameter := fun _ _ e => e;
  setCharge := fun _ _ e => e;
  evalForceAndEnergy := fun _ _ _ _ => (2, -1)%Q
|}.

(** What an evaluator that keeps everything it is given holds. *)
Record received := mkReceived {
  got_rsq : Scalar;
  got_rcutsq : Scalar;
  got_diameter : option (Scalar * Scalar);
  got_charge : option (Scalar * Scalar)
}.

(** A law that asks for the charges only: force_divr = qi*qj/rsq and
    pair_eng = qi*qj, the outputs being left alone when no charge was set. *)
Definition charge_law : evaluator := {|
  param_type := unit;
  param_zero := tt;
  eval_obj := received;
  getName := "charge";
  needsDiameter := false;
  needsCharge := true;
  eval_ctor := fun rsq rcutsq _ => mkReceived rsq rcutsq None None;
  setDiameter := fun di dj e =>
    mkReceived (got_rsq e) (got_rcutsq e) (Some (di, dj)) (got_charge e);
  setCharge := fun qi qj e =>
    mkReceived (got_rsq e) (got_rcutsq e) (got_diameter e) (Some (qi, qj));
  evalForceAndEnergy := fun e force_divr pair_eng _ =>
    match got_charge e with
    | Some (qi, qj) => ((qi * qj / got_rsq e)%Q, (qi * qj)%Q)
    | None => (force_divr, pair_eng)
    end
|}.

(** A cubic box of side [2*h] centred on the origin. *)
Definition centred_box (h : Scalar) : BoxDim :=
  mkBoxDim (- h)%Q h (- h)%Q h (- h)%Q h.

(** Two particles of type 0 on the x axis, at [x0] and [x1], with charges
    [q0] and [q1] and unit diameters. *)
Definition two_particles (x0 x1 q0 q1 : Scalar) : Arrays.t :=
  Arrays.mk 2 [x0; x1] [0%Q; 0%Q] [0%Q; 0%Q] [0%nat; 0%nat]
    [1%Q; 1%Q] [q0; q1].

Definition half_list : NeighborList :=
  mkNeighborList half (fun _ => [[1%nat]; []]).
Definition full_list : NeighborList :=
  mkNeighborList full (fun _ => [[1%nat]; [0%nat]]).

(** Run [m] on [self] and keep the object. *)
Definition exec `{EV : evaluator} {A} (m : M A) (self : PotentialPair)
  : PotentialPair :=
  fst (m self).

(** An engine for [ntypes] types and the two particles, constructed and then
    configured for the type pair (0, 0) with the cutoff [rcut], the onset
    [ron] and the shift mode [mode]. *)
Definition configured `{EV : evaluator} (ntypes : nat) (box : BoxDim)
  (nl : NeighborList) (mode : energyShiftMode) (rcut ron : Scalar)
  (x0 x1 q0 q1 : Scalar) : PotentialPair :=
  let pdata := mkParticleData ntypes (two_particles x0 x1 q0 q1) box in
  let self := PotentialPair_ctor pdata nl in
  let self := exec (setRcut 0 0 rcut) self in
  let self := exec (setRon 0 0 ron) self in
  exec (setShiftMode mode) self.

(** The scenario: one type, two particles one distance unit apart, cutoff
    [rcut], forces computed at timestep 0. *)
Definition scenario `{EV : evaluator} (box : BoxDim) (nl : NeighborList)
  (mode : energyShiftMode) (rcut ron : Scalar) (q0 q1 : Scalar)
  : PotentialPair :=
  exec (computeForces 0) (configured 1 box nl mode rcut ron 1 0 q0 q1).

(** The loop state on entering the neighbours of a particle, all outputs of
    the two particles being zero. *)
Definition entry_state : loop_state :=
  mkLoopState (mkLocals 0 0 0 0 0)
    (mkForceCompute [0%Q; 0%Q] [0%Q; 0%Q] [0%Q; 0%Q] [0%Q; 0%Q] [0%Q; 0%Q])
    [].

(** A freshly constructed engine for three types, with the trivial law. *)
Definition three_types : PotentialPair (EV := trivial_law) :=
  PotentialPair_ctor
    (mkParticleData 3 (two_particles 1 0 0 0) (centred_box 5)) half_list.

(** The engine of the scenario before the forces are computed, in full
    storage mode. *)
Definition trivial_engine : PotentialPair (EV := trivial_law) :=
  configured 1 (centred_box 5) full_list no_shift 2 0 1 0 0 0.

(** An engine in xplor mode with cutoff 2 and onset [ron], the particles
    being 3/2 apart. *)
Definition xplor_engine (ron : Scalar) : PotentialPair (EV := trivial_law) :=
  configured 1 (centred_box 5) full_list xplor 2 ron (3 # 2) 0 0 0.

(** The engine of the scenario in half storage mode, and one whose two
    particles are three units apart, beyond the cutoff 2. *)
Definition half_engine : PotentialPair (EV := trivial_law) :=
  configured 1 (centred_box 5) half_list no_shift 2 0 1 0 0 0.

Definition far_engine : PotentialPair (EV := trivial_law) :=
  configured 1 (centred_box 5) half_list no_shift 2 0 3 0 0 0.

(** The engine of the scenario with the cutoff of its type pair set to 0. *)
Definition off_engine : PotentialPair (EV := trivial_law) :=
  configured 1 (centred_box 5) half_list no_shift 0 0 1 0 0 0.


(** * MuellerPlatheFlow.h: the direction names

    The static members [getStringFromDirection] and
    [getDirectionFromString] and the two getters built on the first. *)
Module MuellerPlatheFlow.

(** The enumeration [flow_enum::Direction] is declared in
    [MuellerPlatheFlowEnum.h], which is not among the sources: the type, its
    three enumerators, which are distinct, and the comparison [==] on its
    values are parameters.  A value of the type need not be an enumerator. *)
Class Direction_enum := {
  Direction : Type;
  X : Direction;
  Y : Direction;
  Z : Direction;
  Direction_eqb : Direction -> Direction -> bool;
  Direction_eqb_eq : forall a b, Direction_eqb a b = true <-> a = b;
  X_neq_Y : X <> Y;
  Y_neq_Z : Y <> Z;
  X_neq_Z : X <> Z
}.

Definition getStringFromDirection `{Direction_enum} (direction : Direction)
  : exn + string :=
  if Direction_eqb direction X then inr "X"%string
  else if Direction_eqb direction Y then inr "Y"%string
  else if Direction_eqb direction Z then inr "Z"%string
  else inl (runtime_error "Direction must be X, Y, or Z").

Definition getDirectionFromString `{Direction_enum} (direction_str : string)
  : exn + Direction :=
  if String.eqb direction_str "X" then inr X
  else if String.eqb direction_str "Y" then inr Y
  else if String.eqb direction_str "Z" then inr Z
  else inl (runtime_error "Direction must be X, Y, or Z").

(** The members of the updater read by the inline getters. *)
Record t `{Direction_enum} := mk {
  m_slab_direction : Direction;
  m_flow_direction : Direction;
  m_flow_epsilon : Scalar;
  m_N_slabs : nat;
  m_min_slab : nat;
  m_max_slab : nat;
  m_exchanged_momentum : Scalar;
  m_has_min_slab : bool;
  m_has_max_slab : bool;
  m_needs_orthorhombic_check : bool
}.

Definition getSlabDirection `{Direction_enum} (self : t) : exn + string :=
  getStringFromDirection (m_slab_direction self).

Definition getFlowDirection `{Direction_enum} (self : t) : exn + string :=
  getStringFromDirection (m_flow_direction self).

(** An enumeration with the values 0, 1 and 2, to run the functions. *)
Definition numbered : Direction_enum.
Proof.
  refine {| Direction := nat; X := 0%nat; Y := 1%nat; Z := 2%nat;
            Direction_eqb := Nat.eqb |}.
  - intros a b. apply Nat.eqb_eq.
  - discriminate.
  - discriminate.
  - discriminate.
Defined.

End MuellerPlatheFlow.

(** * ExternalPotential.h: the total external energy

    The build without MPI: the reduction over the ranks is compiled out. *)
Module ExternalPotential.

Record Scalar4 := mkScalar4 {
  x : Scalar; y : Scalar; z : Scalar; w : Scalar
}.

#[global] Instance Scalar4_inhabited : Inhabited Scalar4 :=
  populate (mkScalar4 0 0 0 0).

(** What [HOOMDMath.h], [VectorMath.h] and [BoxDim.h] provide and the
    sources do not contain: the box type, [vec3<LongReal>] and
    [quat<LongReal>] with their constructors from a [Scalar4], and
    [__scalar_as_int]. *)
Class Math := {
  BoxDim : Type;
  vec3 : Type;
  quat : Type;
  vec3_of_Scalar4 : Scalar4 -> vec3;
  quat_of_Scalar4 : Scalar4 -> quat;
  __scalar_as_int : Scalar -> Z
}.

(** The particle data as [totalEnergy] reads it. *)
Record ParticleData `{Math} := mkParticleData {
  getN : nat;
  getPositions : list Scalar4;
  getOrientationArray : list Scalar4;
  getCharges : list Scalar;
  getGlobalBox : BoxDim
}.

(** An external potential: the virtual member [particleEnergy], whose
    [type_i] is an [unsigned int]. *)
Record potential `{Math} := mkPotential {
  particleEnergy :
    BoxDim -> Z -> vec3 -> quat -> Scalar -> bool -> Scalar
}.

(** The base class: [particleEnergy] returns 0. *)
Definition ExternalPotential `{Math} : potential :=
  mkPotential _ (fun _ _ _ _ _ _ => 0%Q).

(** The energy the loop adds for particle [i]; the [int] read from the
    fourth component of the position becomes the [unsigned int] argument. *)
Definition particle_term `{Math} (self : potential)
  (particle_data : ParticleData) (trial : bool) (i : nat) : Scalar :=
  let postype_i := getPositions particle_data !!! i in
  let r_i := vec3_of_Scalar4 postype_i in
  let type_i := __scalar_as_int (w postype_i) in
  let q_i := quat_of_Scalar4 (getOrientationArray particle_data !!! i) in
  particleEnergy self (getGlobalBox particle_data)
    (type_i mod 2 ^ 32)%Z r_i q_i (getCharges particle_data !!! i) trial.

Definition totalEnergy `{Math} (self : potential)
  (particle_data : ParticleData) (trial : bool) : Scalar :=
  foldl (fun total_energy i =>
           (total_energy + particle_term self particle_data trial i)%Q)
    0%Q (seq 0 (getN particle_data)).

(** Two sets of particles in the same box put together, the second after
    the first. *)
Definition join `{Math} (a b : ParticleData) : ParticleData :=
  mkParticleData _ (getN a + getN b)
    (getPositions a ++ getPositions b)
    (getOrientationArray a ++ getOrientationArray b)
    (getCharges a ++ getCharges b)
    (getGlobalBox a).

(** Each array holds one entry per particle. *)
Definition arrays_sized `{Math} (a : ParticleData) : Prop :=
  length (getPositions a) = getN a
  /\ length (getOrientationArray a) = getN a
  /\ length (getCharges a) = getN a.

(** Plain values for the missing types, and a field that pulls every
    particle towards the plane x = 0 with energy x*x*charge, switched off
    for current configurations. *)
Definition plain_math : Math :=
  {| BoxDim := unit; vec3 := Scalar * Scalar * Scalar;
     quat := Scalar * (Scalar * Scalar * Scalar);
     vec3_of_Scalar4 := fun a => (x a, y a, z a);
     quat_of_Scalar4 := fun a => (x a, (y a, z a, w a));
     __scalar_as_int := fun s => (Qnum s / Z.pos (Qden s))%Z |}.

Definition plane_field : @potential plain_math :=
  @mkPotential plain_math
    (fun _ _ r _ charge trial =>
       if trial then (fst (fst r) * fst (fst r) * charge)%Q else 0%Q).

Definition one_particle (px charge : Scalar) : @ParticleData plain_math :=
  @mkParticleData plain_math 1 [mkScalar4 px 0 0 0] [mkScalar4 1 0 0 0]
    [charge] tt.

End ExternalPotential.

(** * The arithmetic of one pair in double precision

    [Scalar] as the IEEE binary64 numbers of the double-precision build,
    with the operations of the processor: what [computeForces] computes for
    one pair from its imaged offset and the table entries of its type pair
    (lines 390-447), and what the setters store (lines 229 and 249). *)
Module Binary64.

(** The flag handed to the evaluator; [ltb] is the comparison [<]. *)
Definition energy_shift (mode : energyShiftMode)
  (ronsq rcutsq : PrimFloat.float) : bool :=
  match mode with
  | shift => true
  | xplor => if PrimFloat.ltb rcutsq ronsq then true else false
  | no_shift => false
  end.

Import PrimFloat.
Local Open Scope float_scope.

(** The evaluator object prepared for the pair: its [evalForceAndEnergy],
    from the entry values of the two outputs and the shift flag. *)
Definition evaluator_call : Type := float -> float -> bool -> float * float.

(** The trivial law: force_divr = 2 and pair_eng = -1. *)
Definition trivial_law : evaluator_call := fun _ _ _ => (2, -1).

(** [rcut * rcut] and [ron * ron], as [setRcut] and [setRon] store them. *)
Definition stored_square (r : float) : float := r * r.

Definition rsq_of (dx dy dz : float) : float := dx * dx + dy * dy + dz * dz.

Definition xplor_denom (rcutsq ronsq : float) : float :=
  (rcutsq - ronsq) * (rcutsq - ronsq) * (rcutsq - ronsq).

Definition xplor_smoothing (rsq rcutsq ronsq : float)
  (force_divr pair_eng : float) : float * float :=
  let old_pair_eng := pair_eng in
  let old_force_divr := force_divr in
  let xplor_denom_inv := 1 / xplor_denom rcutsq ronsq in
  let rsq_minus_r_cut_sq := rsq - rcutsq in
  let s := rsq_minus_r_cut_sq * rsq_minus_r_cut_sq *
           (rcutsq + 2 * rsq - 3 * ronsq) * xplor_denom_inv in
  let ds_dr_divr := 12 * (rsq - ronsq) * rsq_minus_r_cut_sq * xplor_denom_inv in
  let pair_eng := old_pair_eng * s in
  let force_divr := s * old_force_divr - ds_dr_divr * old_pair_eng in
  (force_divr, pair_eng).

Record pair_result := mkPairResult {
  force_divr : float;
  pair_eng : float;
  divisors : list float
}.

(** Lines 412-447. *)
Definition pair_interaction (mode : energyShiftMode)
  (rsq rcutsq ronsq : float) (eval : evaluator_call) : pair_result :=
  let '(force_divr, pair_eng) :=
    eval 0 0 (energy_shift mode ronsq rcutsq) in
  if energyShiftMode_eqb mode xplor then
    if ronsq <=? rsq then
      let '(force_divr, pair_eng) :=
        xplor_smoothing rsq rcutsq ronsq force_divr pair_eng in
      mkPairResult force_divr pair_eng [xplor_denom rcutsq ronsq]
    else mkPairResult force_divr pair_eng []
  else mkPairResult force_divr pair_eng [].

(** Lines 390-447 for a pair with the imaged offset [(dx, dy, dz)], the
    squared cutoff [rcutsq] and the onset table entry [table_ronsq] of its
    type pair: [None] when the pair is beyond the cutoff. *)
Definition pair_kernel (mode : energyShiftMode) (dx dy dz : float)
  (rcutsq table_ronsq : float) (eval : evaluator_call)
  : option pair_result :=
  let rsq := rsq_of dx dy dz in
  let ronsq := if energyShiftMode_eqb mode xplor then table_ronsq else 0 in
  if rsq <? rcutsq then Some (pair_interaction mode rsq rcutsq ronsq eval)
  else None.

End Binary64.

(** ** Predicates used in the statements *)

(** The invariant the constructor establishes and the setters keep: the
    index helper is the one of the type count and the three tables have one
    slot per unordered type pair. *)
Definition tables_sized `{EV : evaluator} (self : PotentialPair) : Prop :=
  m_typpair_idx self = Index2DUpperTriangular_ctor (getNTypes (m_pdata self))
  /\ length (m_rcutsq self) = getNumElements (m_typpair_idx self)
  /\ length (m_ronsq self) = getNumElements (m_typpair_idx self)
  /\ length (m_params self) = getNumElements (m_typpair_idx self).

(** The engines a client can hold: constructed, then acted upon through the
    public members. *)
Inductive reachable `{EV : evaluator} : PotentialPair -> Prop :=
  | reachable_ctor pdata nlist :
      reachable (PotentialPair_ctor pdata nlist)
  | reachable_setParams a b v self :
      reachable self -> reachable (exec (setParams a b v) self)
  | reachable_setRcut a b rcut self :
      reachable self -> reachable (exec (setRcut a b rcut) self)
  | reachable_setRon a b ron self :
      reachable self -> reachable (exec (setRon a b ron) self)
  | reachable_setShiftMode mode self :
      reachable self -> reachable (exec (setShiftMode mode) self)
  | reachable_compute timestep self :
      reachable self -> reachable (exec (compute timestep) self).





(** The XPLOR window and its derivative term, in the words of the
    specification. *)
Definition xplor_s (rsq rcutsq ronsq : Scalar) : Scalar :=
  ((rsq - rcutsq) * (rsq - rcutsq) * (rcutsq + 2 * rsq - 3 * ronsq)
   / ((rcutsq - ronsq) * (rcutsq - ronsq) * (rcutsq - ronsq)))%Q.

Definition xplor_ds_dr_over_r (rsq rcutsq ronsq : Scalar) : Scalar :=
  (12 * (rsq - ronsq) * (rsq - rcutsq)
   / ((rcutsq - ronsq) * (rcutsq - ronsq) * (rcutsq - ronsq)))%Q.

(** ** Quantities used in the whole-run statements *)

(** The sum of an array, accumulated from zero as [calcEnergySum] does. *)
Definition Qsum (l : list Scalar) : Scalar := foldl Qplus 0%Q l.

(** The five output arrays hold one entry per particle. *)
Definition outputs_sized `{EV : evaluator} (self : PotentialPair) : Prop :=
  let n := Arrays.nparticles (acquireReadOnly (m_pdata self)) in
  length (m_fx (m_force self)) = n /\ length (m_fy (m_force self)) = n
  /\ length (m_fz (m_force self)) = n /\ length (m_pe (m_force self)) = n
  /\ length (m_virial (m_force self)) = n.

(** Every neighbour listed for one of the [n] particles is one of them (the
    [assert(j < m_pdata->getN())] of the loop). *)
Definition valid_neighbours (n : nat) (full_list : list (list nat)) : Prop :=
  Forall (fun i => Forall (fun j => (j < n)%nat) (full_list !!! i)) (seq 0 n).

(** The pair energy the loop obtains for the neighbour [j] of a particle
    with the given locals: the energy of the interaction within the cutoff,
    nothing beyond it. *)
Definition pair_energy_of `{EV : evaluator} (self : PotentialPair)
  (arrays : Arrays.t) (box : BoxDim)
  (xi yi zi : Scalar) (typei : nat) (di qi : Scalar) (j : nat) : Scalar :=
  let d := pair_separation box xi yi zi
             (Arrays.x arrays !!! j) (Arrays.y arrays !!! j)
             (Arrays.z arrays !!! j) in
  let typej := Arrays.type arrays !!! j in
  let dj := if needsDiameter then Arrays.diameter arrays !!! j else 0%Q in
  let qj := if needsCharge then Arrays.charge arrays !!! j else 0%Q in
  if Scalar_lt (rsq_of d) (get_rcutsq self typei typej) then
    pair_eng (pair_interaction (m_shift_mode self) (rsq_of d)
                (get_rcutsq self typei typej) (read_ronsq self typei typej)
                (get_params self typei typej) di dj qi qj)
  else 0%Q.

(** The pair energies of all listed pairs, summed over the neighbour lists
    of the particles at the given timestep. *)
Definition listed_pair_energy `{EV : evaluator} (timestep : nat)
  (self : PotentialPair) : Scalar :=
  let arrays := acquireReadOnly (m_pdata self) in
  let box := getBox (m_pdata self) in
  let full_list := getList (m_nlist self) timestep in
  Qsum (map (fun i =>
               Qsum (map (pair_energy_of self arrays box
                            (Arrays.x arrays !!! i) (Arrays.y arrays !!! i)
                            (Arrays.z arrays !!! i) (Arrays.type arrays !!! i)
                            (if needsDiameter then Arrays.diameter arrays !!! i
                             else 0%Q)
                            (if needsCharge then Arrays.charge arrays !!! i
                             else 0%Q))
                      (full_list !!! i)))
          (seq 0 (Arrays.nparticles arrays))).

(** The output arrays of [n] particles with every entry zero. *)
Definition zero_outputs (n : nat) : ForceCompute :=
  mkForceCompute (replicate n 0%Q) (replicate n 0%Q) (replicate n 0%Q)
    (replicate n 0%Q) (replicate n 0%Q).

(** No listed pair is within the cutoff of its type pair at the timestep:
    the test [rsq < rcutsq] of the loop fails for every neighbour of every
    particle. *)
Definition beyond_cutoff_everywhere `{EV : evaluator} (timestep : nat)
  (self : PotentialPair) : Prop :=
  let arrays := acquireReadOnly (m_pdata self) in
  let box := getBox (m_pdata self) in
  Forall (fun i =>
            Forall (fun j =>
                      Scalar_lt
                        (rsq_of (pair_separation box
                                   (Arrays.x arrays !!! i)
                                   (Arrays.y arrays !!! i)
                                   (Arrays.z arrays !!! i)
                                   (Arrays.x arrays !!! j)
                                   (Arrays.y arrays !!! j)
                                   (Arrays.z arrays !!! j)))
                        (get_rcutsq self (Arrays.type arrays !!! i)
                           (Arrays.type arrays !!! j))
                      = false)
              (getList (m_nlist self) timestep !!! i))
    (seq 0 (Arrays.nparticles arrays)).

(** What the neighbour list of particle [i] alone adds to the locals of
    [i]: the loop over its neighbours in full mode, started from zero. *)
Definition own_contributions `{EV : evaluator} (self : PotentialPair)
  (arrays : Arrays.t) (box : BoxDim) (full_list : list (list nat)) (i : nat)
  : locals :=
  acc_i (foldl (pair_body self false arrays box
                  (Arrays.x arrays !!! i) (Arrays.y arrays !!! i)
                  (Arrays.z arrays !!! i) (Arrays.type arrays !!! i)
                  (if needsDiameter then Arrays.diameter arrays !!! i else 0%Q)
                  (if needsCharge then Arrays.charge arrays !!! i else 0%Q))
           (mkLoopState (mkLocals 0 0 0 0 0) (zero_outputs 0) [])
           (full_list !!! i)).

(** * Verification *)

(** ** Reflection of the comparisons *)

Lemma Scalar_ge_true (a b : Scalar) : Scalar_ge a b = true <-> (b <= a)%Q.
Proof. unfold Scalar_ge. apply Qle_bool_iff. Qed.

Lemma Scalar_ge_false (a b : Scalar) : Scalar_ge a b = false <-> (a < b)%Q.
Proof.
  unfold Scalar_ge. split; intros Hab.
  - apply Qnot_le_lt. intros Hle. apply Qle_bool_iff in Hle. congruence.
  - destruct (Qle_bool b a) eqn:E; [|reflexivity].
    apply Qle_bool_iff in E. exfalso. apply (Qlt_not_le _ _ Hab E).
Qed.

Lemma Scalar_lt_true (a b : Scalar) : Scalar_lt a b = true <-> (a < b)%Q.
Proof.
  unfold Scalar_lt. rewrite negb_true_iff. apply Scalar_ge_false.
Qed.

Lemma Scalar_lt_false (a b : Scalar) : Scalar_lt a b = false <-> (b <= a)%Q.
Proof.
  unfold Scalar_lt. rewrite negb_false_iff. apply Qle_bool_iff.
Qed.

Lemma Scalar_gt_true (a b : Scalar) : Scalar_gt a b = true <-> (b < a)%Q.
Proof. apply Scalar_lt_true. Qed.

Lemma Scalar_gt_false (a b : Scalar) : Scalar_gt a b = false <-> (a <= b)%Q.
Proof. apply Scalar_lt_false. Qed.

(** ** Rational arithmetic up to Leibniz equality

    The evaluator is an arbitrary function of its inputs, so the symmetry
    argument needs the two visits of a pair to hand it the very same
    squared separation. *)




Lemma Qopp_square (a : Scalar) : (- a * - a)%Q = (a * a)%Q.
Proof.
  destruct a as [an ad]. unfold Qmult, Qopp. cbn [Qnum Qden].
  f_equal. ring.
Qed.


(** ** The minimum-image rule on one axis *)




(** ** The upper-triangular index *)

Lemma Index2D_call_sym (idx : Index2DUpperTriangular) (i j : nat) :
  Index2D_call idx i j = Index2D_call idx j i.
Proof.
  unfold Index2D_call.
  destruct (Nat.ltb_spec i j) as [Hij|Hij], (Nat.ltb_spec j i) as [Hji|Hji];
    try reflexivity; try lia.
  assert (i = j) by lia. subst. reflexivity.
Qed.

Lemma triangle_row_bound (w b : nat) :
  (b < w)%nat -> (b * (2 * w - 1 - b) <= (w - 1) * w)%nat.
Proof.
  intros Hb.
  assert (exists k, w = S (b + k)) as [k ->] by (exists (w - 1 - b)%nat; lia).
  replace (2 * S (b + k) - 1 - b)%nat with (S (b + 2 * k)) by lia.
  replace (S (b + k) - 1)%nat with (b + k)%nat by lia.
  nia.
Qed.

Lemma Index2D_call_bound (w i j : nat) :
  (i < w)%nat -> (j < w)%nat ->
  (Index2D_call (Index2DUpperTriangular_ctor w) i j
   < getNumElements (Index2DUpperTriangular_ctor w))%nat.
Proof.
  intros Hi Hj. unfold Index2D_call, getNumElements. cbn [m_w m_term].
  assert (Hkey : forall a b, (b <= a)%nat -> (a < w)%nat ->
            (b * (2 * w - 1 - b) / 2 + a < w * (w + 1) / 2)%nat).
  { intros a b Hba Ha.
    pose proof (triangle_row_bound w b ltac:(lia)) as HT.
    pose proof (Nat.Div0.mul_div_le (b * (2 * w - 1 - b)) 2) as Hd.
    apply Nat.lt_le_trans with (b * (2 * w - 1 - b) / 2 + w)%nat; [lia|].
    apply Nat.div_le_lower_bound; [lia|]. nia. }
  destruct (Nat.ltb_spec i j); apply Hkey; lia.
Qed.

Section Proofs.
Context `{EV : evaluator}.

(** ** The invariant on the tables *)

Lemma ctor_tables_sized (pdata : ParticleData) (nlist : NeighborList) :
  tables_sized (PotentialPair_ctor pdata nlist).
Proof.
  unfold tables_sized, PotentialPair_ctor. cbn.
  rewrite !length_replicate. auto.
Qed.

Lemma slot_in_range (self : PotentialPair) (a b : nat) :
  tables_sized self ->
  (a < getNTypes (m_pdata self))%nat -> (b < getNTypes (m_pdata self))%nat ->
  (Index2D_call (m_typpair_idx self) a b < getNumElements (m_typpair_idx self))%nat.
Proof.
  intros (Hidx & _) Ha Hb. rewrite Hidx. by apply Index2D_call_bound.
Qed.

(** The guard common to the three setters. *)
Lemma type_guard_false (n a b : nat) :
  (a < n)%nat -> (b < n)%nat -> (n <=? a)%nat || (n <=? b)%nat = false.
Proof.
  intros Ha Hb. apply orb_false_iff. split; apply Nat.leb_gt; assumption.
Qed.

Lemma type_guard_true (n a b : nat) :
  (n <= a)%nat \/ (n <= b)%nat -> (n <=? a)%nat || (n <=? b)%nat = true.
Proof.
  intros [H|H]; apply orb_true_iff; [left|right]; by apply Nat.leb_le.
Qed.

(** ** Configuration: the setters *)

Lemma setParams_valid (self : PotentialPair) (a b : nat) (v : param_type) :
  (a < getNTypes (m_pdata self))%nat -> (b < getNTypes (m_pdata self))%nat ->
  setParams a b v self =
    (set_m_params (<[Index2D_call (m_typpair_idx self) a b := v]> (m_params self))
       self, inr tt).
Proof.
  intros Ha Hb. unfold setParams, bind, this, assign.
  by rewrite type_guard_false.
Qed.

Lemma setRcut_valid (self : PotentialPair) (a b : nat) (rcut : Scalar) :
  (a < getNTypes (m_pdata self))%nat -> (b < getNTypes (m_pdata self))%nat ->
  setRcut a b rcut self =
    (set_m_rcutsq
       (<[Index2D_call (m_typpair_idx self) a b := (rcut * rcut)%Q]>
          (m_rcutsq self)) self, inr tt).
Proof.
  intros Ha Hb. unfold setRcut, bind, this, assign.
  by rewrite type_guard_false.
Qed.

Lemma setRon_valid (self : PotentialPair) (a b : nat) (ron : Scalar) :
  (a < getNTypes (m_pdata self))%nat -> (b < getNTypes (m_pdata self))%nat ->
  setRon a b ron self =
    (set_m_ronsq
       (<[Index2D_call (m_typpair_idx self) a b := (ron * ron)%Q]>
          (m_ronsq self)) self, inr tt).
Proof.
  intros Ha Hb. unfold setRon, bind, this, assign.
  by rewrite type_guard_false.
Qed.

Lemma setters_keep_tables_sized (self : PotentialPair) (a b : nat)
  (v : param_type) (r : Scalar) :
  tables_sized self ->
  tables_sized (exec (setParams a b v) self)
  /\ tables_sized (exec (setRcut a b r) self)
  /\ tables_sized (exec (setRon a b r) self).
Proof.
  intros (Hi & Hc & Ho & Hp).
  unfold exec, setParams, setRcut, setRon, bind, this, assign, throw.
  destruct (_ || _); cbn; unfold tables_sized; cbn;
    rewrite ?length_insert; repeat split; assumption.
Qed.

Lemma setters_keep_log_name (self : PotentialPair) (a b : nat)
  (v : param_type) (r : Scalar) (mode : energyShiftMode) (t : nat) :
  m_log_name (exec (setParams a b v) self) = m_log_name self
  /\ m_log_name (exec (setRcut a b r) self) = m_log_name self
  /\ m_log_name (exec (setRon a b r) self) = m_log_name self
  /\ m_log_name (exec (setShiftMode mode) self) = m_log_name self
  /\ m_log_name (exec (compute t) self) = m_log_name self.
Proof.
  unfold exec, setParams, setRcut, setRon, setShiftMode, compute,
    computeForces, bind, this, assign, throw.
  destruct (_ || _); cbn; auto.
Qed.

(** Every reachable engine has its tables sized for its type count and
    carries the log name the constructor gave it. *)
Lemma reachable_invariant (self : PotentialPair) :
  reachable self ->
  tables_sized self
  /\ m_log_name self
     = String.append "pair_" (String.append getName "_energy").
Proof.
  induction 1 as [pdata nlist|a b v self _ [IHt IHn]|a b r self _ [IHt IHn]
                 |a b r self _ [IHt IHn]|mode self _ [IHt IHn]
                 |t self _ [IHt IHn]].
  - split; [apply ctor_tables_sized|reflexivity].
  - split; [exact (proj1 (setters_keep_tables_sized self a b v 0%Q IHt))|].
    by rewrite (proj1 (setters_keep_log_name self a b v 0%Q no_shift 0%nat)).
  - destruct (setters_keep_tables_sized self a b param_zero r IHt)
      as (_ & Ht & _).
    destruct (setters_keep_log_name self a b param_zero r no_shift 0%nat)
      as (_ & Hn & _).
    split; [exact Ht|by rewrite Hn].
  - destruct (setters_keep_tables_sized self a b param_zero r IHt)
      as (_ & _ & Ht).
    destruct (setters_keep_log_name self a b param_zero r no_shift 0%nat)
      as (_ & _ & Hn & _).
    split; [exact Ht|by rewrite Hn].
  - split; [exact IHt|exact IHn].
  - split; [exact IHt|exact IHn].
Qed.

(** C7.  For valid type indices [a] and [b], [setParams a b v] writes the
    slot that [setParams b a v] would write, so that reading the pair
    [(b, a)] afterwards returns [v]; the same holds for the cutoff table,
    which receives [rcut * rcut], and for the onset table, which receives
    [ron * ron].  [self] is any engine obtained from the constructor through
    the public members. *)
Theorem setters_symmetric_in_type_pair
  (self : PotentialPair) (a b : nat) (v : param_type) (rcut ron : Scalar) :
  reachable self ->
  (a < getNTypes (m_pdata self))%nat -> (b < getNTypes (m_pdata self))%nat ->
  Index2D_call (m_typpair_idx self) a b = Index2D_call (m_typpair_idx self) b a
  /\ setParams a b v self = setParams b a v self
  /\ get_params (exec (setParams a b v) self) b a = v
  /\ setRcut a b rcut self = setRcut b a rcut self
  /\ get_rcutsq (exec (setRcut a b rcut) self) b a = (rcut * rcut)%Q
  /\ setRon a b ron self = setRon b a ron self
  /\ get_ronsq (exec (setRon a b ron) self) b a = (ron * ron)%Q.
Proof.
  intros Hreach Ha Hb. destruct (reachable_invariant self Hreach) as [Hwf _].
  pose proof (slot_in_range self a b Hwf Ha Hb) as Hslot.
  destruct Hwf as (Hi & Hc & Ho & Hp).
  pose proof (Index2D_call_sym (m_typpair_idx self) a b) as Hsym.
  split; [exact Hsym|].
  unfold exec, get_params, get_rcutsq, get_ronsq.
  rewrite !setParams_valid, !setRcut_valid, !setRon_valid by assumption.
  cbn. rewrite <- !Hsym.
  repeat split; apply list_lookup_total_insert_eq; congruence.
Qed.

(** C8.  A setter called with a type index that is not below the type count
    throws a [runtime_error] and leaves the object, hence the three tables,
    as it was; with two valid indices no setter throws. *)
Theorem setters_check_type_indices
  (self : PotentialPair) (typ1 typ2 : nat) (v : param_type) (r : Scalar) :
  ((getNTypes (m_pdata self) <= typ1)%nat
   \/ (getNTypes (m_pdata self) <= typ2)%nat ->
   setParams typ1 typ2 v self =
     (self, inl (runtime_error "Error setting parameters in PotentialPair"))
   /\ setRcut typ1 typ2 r self =
     (self, inl (runtime_error "Error setting parameters in PotentialPair"))
   /\ setRon typ1 typ2 r self =
     (self, inl (runtime_error "Error setting parameters in PotentialPair")))
  /\ ((typ1 < getNTypes (m_pdata self))%nat ->
      (typ2 < getNTypes (m_pdata self))%nat ->
      snd (setParams typ1 typ2 v self) = inr tt
      /\ snd (setRcut typ1 typ2 r self) = inr tt
      /\ snd (setRon typ1 typ2 r self) = inr tt).
Proof.
  split.
  - intros Hbad. apply type_guard_true in Hbad.
    unfold setParams, setRcut, setRon, bind, this, throw.
    rewrite Hbad. auto.
  - intros H1 H2.
    rewrite setParams_valid, setRcut_valid, setRon_valid by assumption.
    auto.
Qed.

(** ** Logging *)

Lemma ctor_log_name (pdata : ParticleData) (nlist : NeighborList) :
  m_log_name (PotentialPair_ctor pdata nlist)
  = String.append "pair_" (String.append getName "_energy").
Proof. reflexivity. Qed.

(** C9.  An engine obtained from the constructor through the public
    members provides one log quantity, "pair_<name>_energy" with the name of
    the evaluator.  Asked for that name, [getLogValue] runs the force
    computation for the timestep and returns the sum of the particles'
    potential-energy accumulators it produced; asked for any other name it
    throws a [runtime_error] and the object is left as it was, nothing
    having been computed. *)
Theorem getLogValue_energy_or_error
  (self : PotentialPair) (quantity : string) (timestep : nat) :
  reachable self ->
  getProvidedLogQuantities self
  = (self, inr [String.append "pair_" (String.append getName "_energy")])
  /\ (quantity = String.append "pair_" (String.append getName "_energy") ->
      getLogValue quantity timestep self =
        (exec (computeForces timestep) self,
         inr (foldl Qplus 0%Q
                (take (Arrays.nparticles (acquireReadOnly (m_pdata self)))
                   (m_pe (fst (computeForces_run timestep self)))))))
  /\ (quantity <> String.append "pair_" (String.append getName "_energy") ->
      getLogValue quantity timestep self =
        (self, inl (runtime_error "Error getting log value"))).
Proof.
  intros Hreach. destruct (reachable_invariant self Hreach) as [_ Hname].
  unfold getProvidedLogQuantities, getLogValue, bind, this, throw, ret.
  rewrite Hname. split; [reflexivity|]. split.
  - intros ->. by rewrite String.eqb_refl.
  - intros Hne. apply String.eqb_neq in Hne. by rewrite Hne.
Qed.

End Proofs.

Section LoopProofs.
Context `{EV : evaluator}.

(** ** The cutoff test *)

(** C5.  A pair whose squared separation is not below the squared cutoff of
    its type pair, equality included, leaves the loop state as it was: the
    locals of particle [i], every output array (so the accumulators of both
    particles) and the record of divisions, whatever the storage mode. *)
Theorem beyond_cutoff_contributes_nothing
  (self : PotentialPair) (third_law : bool) (arrays : Arrays.t) (box : BoxDim)
  (xi yi zi : Scalar) (typei : nat) (di qi : Scalar)
  (st : loop_state) (j : nat) :
  let d := pair_separation box xi yi zi (Arrays.x arrays !!! j)
             (Arrays.y arrays !!! j) (Arrays.z arrays !!! j) in
  (get_rcutsq self typei (Arrays.type arrays !!! j) <= rsq_of d)%Q ->
  pair_body self third_law arrays box xi yi zi typei di qi st j = st.
Proof.
  intros d Hout. unfold pair_body. fold d.
  apply Scalar_lt_false in Hout. by rewrite Hout.
Qed.

(** The state after a pair within the cutoff, spelled out. *)
Lemma pair_body_within
  (self : PotentialPair) (third_law : bool) (arrays : Arrays.t) (box : BoxDim)
  (xi yi zi : Scalar) (typei : nat) (di qi : Scalar)
  (st : loop_state) (j : nat) :
  let d := pair_separation box xi yi zi (Arrays.x arrays !!! j)
             (Arrays.y arrays !!! j) (Arrays.z arrays !!! j) in
  let typej := Arrays.type arrays !!! j in
  let dj := if needsDiameter then Arrays.diameter arrays !!! j else 0%Q in
  let qj := if needsCharge then Arrays.charge arrays !!! j else 0%Q in
  let r := pair_interaction (m_shift_mode self) (rsq_of d)
             (get_rcutsq self typei typej) (read_ronsq self typei typej)
             (get_params self typei typej) di dj qi qj in
  let pair_virial := ((1 # 6) * rsq_of d * force_divr r)%Q in
  let a := acc_i st in
  let f := out st in
  (rsq_of d < get_rcutsq self typei typej)%Q ->
  pair_body self third_law arrays box xi yi zi typei di qi st j =
    mkLoopState
      (mkLocals (fxi a + dx d * force_divr r)%Q (fyi a + dy d * force_divr r)%Q
         (fzi a + dz d * force_divr r)%Q (pei a + pair_eng r * (1 # 2))%Q
         (viriali a + pair_virial)%Q)
      (if third_law then
         mkForceCompute
           (<[j := (m_fx f !!! j - dx d * force_divr r)%Q]> (m_fx f))
           (<[j := (m_fy f !!! j - dy d * force_divr r)%Q]> (m_fy f))
           (<[j := (m_fz f !!! j - dz d * force_divr r)%Q]> (m_fz f))
           (<[j := (m_pe f !!! j + pair_eng r * (1 # 2))%Q]> (m_pe f))
           (<[j := (m_virial f !!! j + pair_virial)%Q]> (m_virial f))
       else f)
      (executed_divisions st ++ divisors r).
Proof.
  intros d typej dj qj r pair_virial a f Hin. unfold pair_body.
  fold d typej. apply Scalar_lt_true in Hin. rewrite Hin. reflexivity.
Qed.

(** ** XPLOR smoothing *)

Lemma xplor_denom_pos (rcutsq ronsq : Scalar) :
  (ronsq < rcutsq)%Q -> (0 < xplor_denom rcutsq ronsq)%Q.
Proof.
  intros H. unfold xplor_denom.
  assert (0 < rcutsq - ronsq)%Q as Ha by lra.
  repeat apply Qmult_lt_0_compat; exact Ha.
Qed.

Lemma xplor_smoothing_formula (rsq rcutsq ronsq F E : Scalar) :
  (ronsq < rcutsq)%Q ->
  (fst (xplor_smoothing rsq rcutsq ronsq F E)
     == xplor_s rsq rcutsq ronsq * F - xplor_ds_dr_over_r rsq rcutsq ronsq * E
   /\ snd (xplor_smoothing rsq rcutsq ronsq F E)
        == xplor_s rsq rcutsq ronsq * E)%Q.
Proof.
  intros H. unfold xplor_smoothing, xplor_s, xplor_ds_dr_over_r, xplor_denom.
  cbn [fst snd]. split; field; lra.
Qed.

Lemma xplor_s_at_onset (rsq rcutsq ronsq : Scalar) :
  (ronsq < rcutsq)%Q -> (rsq == ronsq)%Q ->
  (xplor_s rsq rcutsq ronsq == 1 /\ xplor_ds_dr_over_r rsq rcutsq ronsq == 0)%Q.
Proof.
  intros H Hr. unfold xplor_s, xplor_ds_dr_over_r. rewrite Hr.
  split; field; lra.
Qed.

Lemma xplor_smoothing_at_cutoff (rcutsq ronsq F E : Scalar) :
  (snd (xplor_smoothing rcutsq rcutsq ronsq F E) == 0)%Q.
Proof. unfold xplor_smoothing. cbn [snd]. ring. Qed.

Lemma pair_interaction_xplor_window
  (rsq rcutsq ronsq : Scalar) (param : param_type) (di dj qi qj : Scalar) :
  (ronsq <= rsq)%Q ->
  let raw := evalForceAndEnergy (make_eval rsq rcutsq param di dj qi qj)
               0%Q 0%Q (energy_shift xplor ronsq rcutsq) in
  pair_interaction xplor rsq rcutsq ronsq param di dj qi qj =
    mkPairResult (fst (xplor_smoothing rsq rcutsq ronsq (fst raw) (snd raw)))
      (snd (xplor_smoothing rsq rcutsq ronsq (fst raw) (snd raw)))
      [xplor_denom rcutsq ronsq].
Proof.
  intros Hon raw. unfold pair_interaction. fold raw.
  destruct raw as [F E]. cbn [energyShiftMode_eqb fst snd].
  apply Scalar_ge_true in Hon. rewrite Hon. reflexivity.
Qed.

Lemma pair_interaction_raw (mode : energyShiftMode)
  (rsq rcutsq ronsq : Scalar) (param : param_type) (di dj qi qj : Scalar) :
  mode <> xplor \/ (rsq < ronsq)%Q ->
  let raw := evalForceAndEnergy (make_eval rsq rcutsq param di dj qi qj)
               0%Q 0%Q (energy_shift mode ronsq rcutsq) in
  pair_interaction mode rsq rcutsq ronsq param di dj qi qj =
    mkPairResult (fst raw) (snd raw) [].
Proof.
  intros Hcase raw. unfold pair_interaction. fold raw. destruct raw as [F E].
  cbn [fst snd].
  destruct Hcase as [Hm|Hlt].
  - destruct mode; try reflexivity. congruence.
  - apply Scalar_ge_false in Hlt. rewrite Hlt. by destruct mode.
Qed.

(** The window on given values of [rsq], [rcutsq] and [ronsq]: with the
    flag not set the evaluator is asked for the unshifted output, which is
    smoothed when [ronsq <= rsq] and kept when [rsq < ronsq]. *)
Lemma xplor_window_on_values
  (rsq rcutsq ronsq : Scalar) (param : param_type) (di dj qi qj : Scalar) :
  let raw := evalForceAndEnergy (make_eval rsq rcutsq param di dj qi qj)
               0%Q 0%Q false in
  let r := pair_interaction xplor rsq rcutsq ronsq param di dj qi qj in
  (ronsq <= rcutsq)%Q -> (rsq < rcutsq)%Q ->
  energy_shift xplor ronsq rcutsq = false
  /\ ((ronsq <= rsq)%Q ->
      (pair_eng r == xplor_s rsq rcutsq ronsq * snd raw)%Q
      /\ (force_divr r == xplor_s rsq rcutsq ronsq * fst raw
                          - xplor_ds_dr_over_r rsq rcutsq ronsq * snd raw)%Q)
  /\ ((rsq < ronsq)%Q ->
      force_divr r = fst raw /\ pair_eng r = snd raw /\ divisors r = [])
  /\ ((rsq == ronsq)%Q ->
      (pair_eng r == snd raw)%Q /\ (force_divr r == fst raw)%Q)
  /\ (forall F E, (snd (xplor_smoothing rcutsq rcutsq ronsq F E) == 0)%Q).
Proof.
  intros raw r Hflag Hcut.
  assert (Hshift : energy_shift xplor ronsq rcutsq = false).
  { unfold energy_shift. apply Scalar_gt_false in Hflag. by rewrite Hflag. }
  assert (Hwin : (ronsq <= rsq)%Q ->
     (pair_eng r == xplor_s rsq rcutsq ronsq * snd raw)%Q
     /\ (force_divr r == xplor_s rsq rcutsq ronsq * fst raw
                         - xplor_ds_dr_over_r rsq rcutsq ronsq * snd raw)%Q).
  { intros Hon. unfold r.
    rewrite pair_interaction_xplor_window by exact Hon.
    rewrite Hshift. fold raw. cbn [pair_eng force_divr].
    destruct (xplor_smoothing_formula rsq rcutsq ronsq (fst raw) (snd raw))
      as [HF HE]; [lra|]. split; assumption. }
  split; [exact Hshift|]. split; [exact Hwin|]. split; [|split].
  - intros Hlt. unfold r.
    rewrite pair_interaction_raw by (right; exact Hlt).
    rewrite Hshift. fold raw. auto.
  - intros Heq. destruct Hwin as [HE HF]; [lra|].
    destruct (xplor_s_at_onset rsq rcutsq ronsq) as [Hs Hds]; [lra|exact Heq|].
    rewrite HE, HF, Hs, Hds. split; ring.
  - intros F E. apply xplor_smoothing_at_cutoff.
Qed.

(** ** Divisions executed by the loop *)

Lemma pair_interaction_divisors (mode : energyShiftMode)
  (rsq rcutsq ronsq : Scalar) (param : param_type) (di dj qi qj : Scalar)
  (den : Scalar) :
  den ∈ divisors (pair_interaction mode rsq rcutsq ronsq param di dj qi qj) ->
  mode = xplor /\ (ronsq <= rsq)%Q /\ den = xplor_denom rcutsq ronsq.
Proof.
  unfold pair_interaction.
  destruct (evalForceAndEnergy _ _ _ _) as [F E].
  destruct mode; cbn [energyShiftMode_eqb divisors];
    try (intros Hin; by apply not_elem_of_nil in Hin).
  destruct (Scalar_ge rsq ronsq) eqn:Hge; cbn [divisors].
  - destruct (xplor_smoothing _ _ _ _ _). cbn [divisors].
    intros Hin. apply list_elem_of_singleton in Hin.
    apply Scalar_ge_true in Hge. auto.
  - intros Hin. by apply not_elem_of_nil in Hin.
Qed.

Lemma pair_body_divisions
  (self : PotentialPair) (third_law : bool) (arrays : Arrays.t) (box : BoxDim)
  (xi yi zi : Scalar) (typei : nat) (di qi : Scalar)
  (st : loop_state) (j : nat) (den : Scalar) :
  let d := pair_separation box xi yi zi (Arrays.x arrays !!! j)
             (Arrays.y arrays !!! j) (Arrays.z arrays !!! j) in
  let rcutsq := get_rcutsq self typei (Arrays.type arrays !!! j) in
  let ronsq := read_ronsq self typei (Arrays.type arrays !!! j) in
  den ∈ executed_divisions
          (pair_body self third_law arrays box xi yi zi typei di qi st j) ->
  den ∈ executed_divisions st
  \/ (m_shift_mode self = xplor /\ (ronsq <= rsq_of d)%Q
      /\ (rsq_of d < rcutsq)%Q /\ den = xplor_denom rcutsq ronsq).
Proof.
  intros d rcutsq ronsq. unfold pair_body. fold d rcutsq ronsq.
  destruct (Scalar_lt (rsq_of d) rcutsq) eqn:Hlt; [|auto].
  cbn [executed_divisions]. intros Hin.
  apply elem_of_app in Hin as [Hin|Hin]; [auto|right].
  apply pair_interaction_divisors in Hin as (Hm & Hon & ->).
  apply Scalar_lt_true in Hlt. auto.
Qed.

Lemma pair_body_divisions_pos
  (self : PotentialPair) (third_law : bool) (arrays : Arrays.t) (box : BoxDim)
  (xi yi zi : Scalar) (typei : nat) (di qi : Scalar)
  (st : loop_state) (j : nat) :
  Forall (fun den => (0 < den)%Q) (executed_divisions st) ->
  Forall (fun den => (0 < den)%Q)
    (executed_divisions
       (pair_body self third_law arrays box xi yi zi typei di qi st j)).
Proof.
  intros Hst. apply Forall_forall. intros den Hin.
  apply pair_body_divisions in Hin as [Hin|(_ & Hon & Hcut & ->)].
  - by apply (proj1 (Forall_forall _ _) Hst).
  - apply xplor_denom_pos. lra.
Qed.

Lemma neighbour_loop_divisions_pos
  (self : PotentialPair) (third_law : bool) (arrays : Arrays.t) (box : BoxDim)
  (xi yi zi : Scalar) (typei : nat) (di qi : Scalar)
  (list : list nat) (st : loop_state) :
  Forall (fun den => (0 < den)%Q) (executed_divisions st) ->
  Forall (fun den => (0 < den)%Q)
    (executed_divisions
       (foldl (pair_body self third_law arrays box xi yi zi typei di qi)
          st list)).
Proof.
  revert st. induction list as [|j list IH]; intros st Hst; cbn; [done|].
  apply IH. by apply pair_body_divisions_pos.
Qed.

Lemma particle_body_divisions_pos
  (self : PotentialPair) (third_law : bool) (full_list : list (list nat))
  (arrays : Arrays.t) (box : BoxDim) (acc : ForceCompute * list Scalar)
  (i : nat) :
  Forall (fun den => (0 < den)%Q) (snd acc) ->
  Forall (fun den => (0 < den)%Q)
    (snd (particle_body self third_law full_list arrays box acc i)).
Proof.
  intros Hacc. unfold particle_body. cbn [snd].
  by apply neighbour_loop_divisions_pos.
Qed.

(** C10, as amended.  The division by the XPLOR denominator is executed for
    a pair only in xplor mode with [ronsq <= rsq] and [rsq < rcutsq], hence
    with [ronsq < rcutsq].  When [rcutsq <= ronsq] no pair executes it.  In
    exact arithmetic the denominator [(rcutsq - ronsq)^3] is then positive,
    and so is every denominator divided by over a whole run of
    [computeForces].  (In floating point the product can underflow to zero,
    as the run in double precision shows.) *)
Theorem xplor_division_is_guarded
  (self : PotentialPair) (third_law : bool) (arrays : Arrays.t) (box : BoxDim)
  (xi yi zi : Scalar) (typei : nat) (di qi : Scalar)
  (st : loop_state) (j : nat) (timestep : nat) :
  let d := pair_separation box xi yi zi (Arrays.x arrays !!! j)
             (Arrays.y arrays !!! j) (Arrays.z arrays !!! j) in
  let rcutsq := get_rcutsq self typei (Arrays.type arrays !!! j) in
  let ronsq := read_ronsq self typei (Arrays.type arrays !!! j) in
  let st' := pair_body self third_law arrays box xi yi zi typei di qi st j in
  (forall den, den ∈ executed_divisions st' ->
     den ∈ executed_divisions st
     \/ (m_shift_mode self = xplor /\ (ronsq <= rsq_of d)%Q
         /\ (rsq_of d < rcutsq)%Q /\ (ronsq < rcutsq)%Q
         /\ den = xplor_denom rcutsq ronsq /\ (0 < den)%Q))
  /\ ((rcutsq <= ronsq)%Q -> executed_divisions st' = executed_divisions st)
  /\ Forall (fun den => (0 < den)%Q) (snd (computeForces_run timestep self)).
Proof.
  intros d rcutsq ronsq st'. split; [|split].
  - intros den Hin. apply pair_body_divisions in Hin.
    destruct Hin as [Hin|(Hm & Hon & Hcut & Hden)]; [auto|right].
    fold d rcutsq ronsq in Hon, Hcut, Hden.
    assert (ronsq < rcutsq)%Q by lra.
    repeat split; try assumption. rewrite Hden. by apply xplor_denom_pos.
  - intros Hge. unfold st', pair_body. fold d rcutsq ronsq.
    destruct (Scalar_lt (rsq_of d) rcutsq) eqn:Hlt; [|reflexivity].
    cbn [executed_divisions]. apply Scalar_lt_true in Hlt.
    rewrite pair_interaction_raw; [by rewrite app_nil_r|].
    right. lra.
  - unfold computeForces_run.
    generalize (seq 0 (Arrays.nparticles (acquireReadOnly (m_pdata self)))).
    intros l.
    match goal with |- context [foldl ?f (?f0, []) l] =>
      generalize f0; intros f0' end.
    assert (Hnil : Forall (fun den => (0 < den)%Q)
                     (snd (f0', @nil Scalar))) by constructor.
    revert Hnil. generalize (f0', @nil Scalar). clear f0'.
    induction l as [|i l IH]; intros acc Hacc; cbn; [done|].
    apply IH. by apply particle_body_divisions_pos.
Qed.

(** ** Separation of a pair *)



End LoopProofs.


Section CreditingProofs.
Context `{EV : evaluator}.

(** ** Exchange of the two particles of a pair *)






(** ** Crediting the two particles *)


(** ** Energy and virial *)

(** C6.  For a pair within the cutoff, half of [pair_eng] is added to the
    potential energy kept for [i] and [(1/6) * rsq * force_divr], with no
    minus sign, to its virial; in half mode the same two amounts are added
    to the output arrays at [j], in full mode the arrays are not written.
    The locals of [i] are added to the arrays at [i] after its neighbours.
    In the scenario (two particles of one type one unit apart, cutoff
    squared 4, no shift, the trivial law) the forces are 2 and -2 along x,
    each energy is -1/2 and each virial 1/3, in either storage mode. *)
Theorem energy_and_virial_crediting
  (self : PotentialPair) (third_law : bool) (arrays : Arrays.t) (box : BoxDim)
  (xi yi zi : Scalar) (typei : nat) (di qi : Scalar)
  (st : loop_state) (j : nat) :
  let d := pair_separation box xi yi zi (Arrays.x arrays !!! j)
             (Arrays.y arrays !!! j) (Arrays.z arrays !!! j) in
  let typej := Arrays.type arrays !!! j in
  let dj := if needsDiameter then Arrays.diameter arrays !!! j else 0%Q in
  let qj := if needsCharge then Arrays.charge arrays !!! j else 0%Q in
  let rcutsq := get_rcutsq self typei typej in
  let r := pair_interaction (m_shift_mode self) (rsq_of d) rcutsq
             (read_ronsq self typei typej) (get_params self typei typej)
             di dj qi qj in
  let st' := pair_body self third_law arrays box xi yi zi typei di qi st j in
  (rsq_of d < rcutsq)%Q ->
  (pei (acc_i st') = (pei (acc_i st) + pair_eng r * (1 # 2))%Q
   /\ viriali (acc_i st')
      = (viriali (acc_i st) + (1 # 6) * rsq_of d * force_divr r)%Q)
  /\ (third_law = true ->
      (j < length (m_pe (out st)))%nat ->
      (j < length (m_virial (out st)))%nat ->
      m_pe (out st') !!! j = (m_pe (out st) !!! j + pair_eng r * (1 # 2))%Q
      /\ m_virial (out st') !!! j
         = (m_virial (out st) !!! j + (1 # 6) * rsq_of d * force_divr r)%Q)
  /\ (third_law = false -> out st' = out st)
  /\ (forall full_list acc i,
        let done :=
          foldl (pair_body self third_law arrays box
                   (Arrays.x arrays !!! i) (Arrays.y arrays !!! i)
                   (Arrays.z arrays !!! i) (Arrays.type arrays !!! i)
                   (if needsDiameter then Arrays.diameter arrays !!! i
                    else 0%Q)
                   (if needsCharge then Arrays.charge arrays !!! i else 0%Q))
            (mkLoopState (mkLocals 0 0 0 0 0) (fst acc) (snd acc))
            (full_list !!! i) in
        let f' := fst (particle_body self third_law full_list arrays box
                         acc i) in
        (i < length (m_pe (out done)))%nat ->
        (i < length (m_virial (out done)))%nat ->
        m_pe f' !!! i = (m_pe (out done) !!! i + pei (acc_i done))%Q
        /\ m_virial f' !!! i
           = (m_virial (out done) !!! i + viriali (acc_i done))%Q)
  /\ (forall nl, nl = half_list \/ nl = full_list ->
        let f := m_force (scenario (EV := trivial_law) (centred_box 5) nl
                            no_shift 2 0 0 0) in
        Forall2 Qeq (m_fx f) [2 * 1; - (2 * 1)]%Q
        /\ Forall2 Qeq (m_fy f) [0; 0]%Q /\ Forall2 Qeq (m_fz f) [0; 0]%Q
        /\ Forall2 Qeq (m_pe f) [- (1 # 2); - (1 # 2)]%Q
        /\ Forall2 Qeq (m_virial f) [1 # 3; 1 # 3]%Q).
Proof.
  intros d typej dj qj rcutsq r st' Hin.
  pose proof (pair_body_within self third_law arrays box xi yi zi typei di qi
                st j Hin) as Hst.
  fold d typej dj qj rcutsq r st' in Hst.
  split; [|split; [|split; [|split]]].
  - rewrite Hst. cbn [acc_i pei viriali]. auto.
  - intros -> Hp Hv. rewrite Hst. cbn [out m_pe m_virial].
    rewrite !list_lookup_total_insert_eq by assumption. auto.
  - intros ->. rewrite Hst. reflexivity.
  - intros fl acc i done f' Hp Hv. unfold f', particle_body.
    cbn [fst m_pe m_virial]. fold done.
    rewrite !list_lookup_total_insert_eq by assumption. auto.
  - intros nl [-> | ->]; vm_compute;
      repeat split; repeat constructor; reflexivity.
Qed.

End CreditingProofs.

(** ** What the evaluator is given *)

(** The diameters reach the evaluator when it asks for them. *)
Lemma diameters_reach_the_evaluator `{EV : evaluator}
  (rsq rcutsq : Scalar) (param : param_type) (di dj qi qj : Scalar) :
  needsDiameter = true -> needsCharge = false ->
  make_eval rsq rcutsq param di dj qi qj
  = setDiameter di dj (eval_ctor rsq rcutsq param).
Proof. intros Hd Hc. unfold make_eval. by rewrite Hd, Hc. Qed.

(** C2, the charge half: the code departs from it.  Whatever the evaluator,
    the object it evaluates does not depend on the two charges read from the
    particle store.  With the charge law (which asks for charges and not for
    diameters) and charges 1 and -1, [setCharge] is called with (0, 0): the
    law yields energy 0 and both accumulators stay at 0, where the charges
    1 and -1 would give the pair energy -1. *)
Theorem charges_do_not_reach_the_evaluator :
  (forall (EV : evaluator) rsq rcutsq param di dj qi qj qi' qj',
     make_eval rsq rcutsq param di dj qi qj
     = make_eval rsq rcutsq param di dj qi' qj')
  /\ make_eval (EV := charge_law) 1 4 tt 0 0 1 (-1)
     = mkReceived 1 4 None (Some (0%Q, 0%Q))
  /\ setCharge 1 (-1) (eval_ctor (evaluator := charge_law) 1 4 tt)
     = mkReceived 1 4 None (Some (1%Q, (-1)%Q))
  /\ evalForceAndEnergy
       (setCharge 1 (-1) (eval_ctor (evaluator := charge_law) 1 4 tt))
       0%Q 0%Q false = ((-1)%Q, (-1)%Q)
  /\ Forall (fun e => (e == 0)%Q)
       (m_pe (m_force (scenario (EV := charge_law) (centred_box 5) half_list
                         no_shift 2 0 1 (-1)))).
Proof.
  split; [reflexivity|].
  repeat split; try reflexivity.
  vm_compute. repeat constructor.
Qed.

(** ** The theorems at concrete inputs *)

Lemma beyond_cutoff_contributes_nothing_witness :
  (get_rcutsq
     (configured (EV := trivial_law) 1 (centred_box 5) half_list no_shift
        2 0 2 0 0 0) 0 0
   <= rsq_of (pair_separation (centred_box 5) 2 0 0 0 0 0))%Q
  /\ pair_body
       (configured (EV := trivial_law) 1 (centred_box 5) half_list no_shift
          2 0 2 0 0 0)
       true (two_particles 2 0 0 0) (centred_box 5) 2 0 0 0 0 0
       entry_state 1
     = entry_state.
Proof.
  assert (H : (get_rcutsq
     (configured (EV := trivial_law) 1 (centred_box 5) half_list no_shift
        2 0 2 0 0 0) 0 0
   <= rsq_of (pair_separation (centred_box 5) 2 0 0 0 0 0))%Q)
    by (vm_compute; discriminate).
  split; [exact H|].
  exact (beyond_cutoff_contributes_nothing
           (configured (EV := trivial_law) 1 (centred_box 5) half_list
              no_shift 2 0 2 0 0 0)
           true (two_particles 2 0 0 0) (centred_box 5) 2 0 0 0 0 0
           entry_state 1 H).
Defined.


Lemma energy_and_virial_crediting_witness :
  (rsq_of (pair_separation (centred_box 5) 1 0 0 0 0 0)
   < get_rcutsq trivial_engine 0 0)%Q
  /\ pei (acc_i (pair_body trivial_engine true (two_particles 1 0 0 0)
                   (centred_box 5) 1 0 0 0 0 0 entry_state 1))
     = (0 + -1 * (1 # 2))%Q
  /\ viriali (acc_i (pair_body trivial_engine true (two_particles 1 0 0 0)
                       (centred_box 5) 1 0 0 0 0 0 entry_state 1))
     = (0 + (1 # 6) * 1 * 2)%Q
  /\ m_pe (out (pair_body trivial_engine true (two_particles 1 0 0 0)
                  (centred_box 5) 1 0 0 0 0 0 entry_state 1)) !!! 1%nat
     = (0 + -1 * (1 # 2))%Q
  /\ m_virial (out (pair_body trivial_engine true (two_particles 1 0 0 0)
                      (centred_box 5) 1 0 0 0 0 0 entry_state 1)) !!! 1%nat
     = (0 + (1 # 6) * 1 * 2)%Q.
Proof.
  assert (Hin : (rsq_of (pair_separation (centred_box 5) 1 0 0 0 0 0)
                 < get_rcutsq trivial_engine 0 0)%Q) by reflexivity.
  destruct (energy_and_virial_crediting trivial_engine true
              (two_particles 1 0 0 0) (centred_box 5) 1 0 0 0 0 0
              entry_state 1 Hin)
    as ((Hpe & Hvi) & Hhalf & _).
  destruct (Hhalf eq_refl ltac:(simpl; lia) ltac:(simpl; lia)) as (Hjp & Hjv).
  split; [exact Hin|]. split; [exact Hpe|]. split; [exact Hvi|].
  split; [exact Hjp|exact Hjv].
Defined.


Lemma setters_symmetric_in_type_pair_witness :
  reachable three_types
  /\ (0 < getNTypes (m_pdata three_types))%nat
  /\ (2 < getNTypes (m_pdata three_types))%nat
  /\ Index2D_call (m_typpair_idx three_types) 0 2
     = Index2D_call (m_typpair_idx three_types) 2 0
  /\ get_params (exec (setParams (EV := trivial_law) 0 2 tt) three_types) 2 0
     = tt
  /\ get_rcutsq (exec (setRcut 0 2 3) three_types) 2 0 = (3 * 3)%Q
  /\ get_ronsq (exec (setRon 0 2 2) three_types) 2 0 = (2 * 2)%Q.
Proof.
  assert (Hreach : reachable three_types) by constructor.
  assert (Ha : (0 < getNTypes (m_pdata three_types))%nat) by (simpl; lia).
  assert (Hb : (2 < getNTypes (m_pdata three_types))%nat) by (simpl; lia).
  destruct (setters_symmetric_in_type_pair three_types 0 2 tt 3 2
              Hreach Ha Hb)
    as (Hslot & _ & Hp & _ & Hc & _ & Ho).
  split; [exact Hreach|]. split; [exact Ha|]. split; [exact Hb|].
  split; [exact Hslot|]. split; [exact Hp|]. split; [exact Hc|exact Ho].
Defined.

Lemma setters_check_type_indices_witness :
  ((getNTypes (m_pdata three_types) <= 5)%nat
   \/ (getNTypes (m_pdata three_types) <= 0)%nat)
  /\ setRcut 5 0 2 three_types =
       (three_types,
        inl (runtime_error "Error setting parameters in PotentialPair"))
  /\ (0 < getNTypes (m_pdata three_types))%nat
  /\ (1 < getNTypes (m_pdata three_types))%nat
  /\ snd (setRcut 0 1 2 three_types) = inr tt.
Proof.
  assert (Hbad : (getNTypes (m_pdata three_types) <= 5)%nat
                 \/ (getNTypes (m_pdata three_types) <= 0)%nat)
    by (left; simpl; lia).
  assert (H0 : (0 < getNTypes (m_pdata three_types))%nat) by (simpl; lia).
  assert (H1 : (1 < getNTypes (m_pdata three_types))%nat) by (simpl; lia).
  destruct (setters_check_type_indices three_types 5 0 tt 2) as (Herr & _).
  destruct (Herr Hbad) as (_ & Hcut & _).
  destruct (setters_check_type_indices three_types 0 1 tt 2) as (_ & Hok).
  destruct (Hok H0 H1) as (_ & Hcut' & _).
  split; [exact Hbad|]. split; [exact Hcut|]. split; [exact H0|].
  split; [exact H1|exact Hcut'].
Defined.

Lemma getLogValue_energy_or_error_witness :
  reachable trivial_engine
  /\ "pair_trivial_energy"%string
     = String.append "pair_" (String.append (getName (evaluator := trivial_law))
                                "_energy")
  /\ snd (getLogValue "pair_trivial_energy" 0 trivial_engine)
     = inr (0 + (0 + -1 * (1 # 2)) + (0 + -1 * (1 # 2)))%Q
  /\ "temperature"%string
     <> String.append "pair_" (String.append (getName (evaluator := trivial_law))
                                 "_energy")
  /\ getLogValue "temperature" 0 trivial_engine
     = (trivial_engine, inl (runtime_error "Error getting log value")).
Proof.
  assert (Hreach : reachable trivial_engine) by (repeat constructor).
  assert (Hname : "pair_trivial_energy"%string
     = String.append "pair_" (String.append (getName (evaluator := trivial_law))
                                "_energy")) by reflexivity.
  assert (Hother : "temperature"%string
     <> String.append "pair_" (String.append (getName (evaluator := trivial_law))
                                 "_energy")) by (vm_compute; discriminate).
  destruct (getLogValue_energy_or_error trivial_engine "pair_trivial_energy" 0
              Hreach) as (_ & Hok & _).
  destruct (getLogValue_energy_or_error trivial_engine "temperature" 0 Hreach)
    as (_ & _ & Herr).
  split; [exact Hreach|]. split; [exact Hname|].
  split; [exact (f_equal snd (Hok Hname))|].
  split; [exact Hother|exact (Herr Hother)].
Defined.

Lemma xplor_division_is_guarded_witness :
  27%Q ∈ executed_divisions
          (pair_body (xplor_engine 1) false (two_particles (3 # 2) 0 0 0)
             (centred_box 5) (3 # 2) 0 0 0 0 0 entry_state 1)
  /\ (read_ronsq (xplor_engine 1) 0 0 < get_rcutsq (xplor_engine 1) 0 0)%Q
  /\ (0 < 27)%Q
  /\ (get_rcutsq (xplor_engine 3) 0 0 <= read_ronsq (xplor_engine 3) 0 0)%Q
  /\ executed_divisions
       (pair_body (xplor_engine 3) false (two_particles (3 # 2) 0 0 0)
          (centred_box 5) (3 # 2) 0 0 0 0 0 entry_state 1)
     = [].
Proof.
  assert (Hin : 27%Q ∈ executed_divisions
          (pair_body (xplor_engine 1) false (two_particles (3 # 2) 0 0 0)
             (centred_box 5) (3 # 2) 0 0 0 0 0 entry_state 1))
    by (vm_compute; apply list_elem_of_here).
  assert (Hge : (get_rcutsq (xplor_engine 3) 0 0
                 <= read_ronsq (xplor_engine 3) 0 0)%Q)
    by (vm_compute; discriminate).
  destruct (xplor_division_is_guarded (xplor_engine 1) false
              (two_particles (3 # 2) 0 0 0) (centred_box 5) (3 # 2) 0 0 0 0 0
              entry_state 1 0) as (Hguard & _ & _).
  destruct (Hguard 27%Q Hin) as [Hold|(_ & _ & _ & Hlt & _ & Hpos)].
  { exfalso. cbn in Hold. by apply not_elem_of_nil in Hold. }
  destruct (xplor_division_is_guarded (xplor_engine 3) false
              (two_particles (3 # 2) 0 0 0) (centred_box 5) (3 # 2) 0 0 0 0 0
              entry_state 1 0) as (_ & Hnone & _).
  split; [exact Hin|]. split; [exact Hlt|]. split; [exact Hpos|].
  split; [exact Hge|exact (Hnone Hge)].
Defined.

(** * Whole runs of [computeForces] *)

(** ** Sums of arrays *)

Lemma foldl_Qplus_acc (a : Scalar) (l : list Scalar) :
  (foldl Qplus a l == a + Qsum l)%Q.
Proof.
  unfold Qsum. revert a. induction l as [|x l IH]; intros a; cbn.
  - ring.
  - rewrite (IH (a + x)%Q), (IH (0 + x)%Q). ring.
Qed.

Lemma Qsum_cons (x : Scalar) (l : list Scalar) :
  (Qsum (x :: l) == x + Qsum l)%Q.
Proof.
  unfold Qsum at 1. cbn. rewrite foldl_Qplus_acc. ring.
Qed.

Lemma Qsum_replicate_zero (n : nat) : (Qsum (replicate n 0%Q) == 0)%Q.
Proof.
  induction n as [|n IH]; cbn [replicate]; [reflexivity|].
  rewrite Qsum_cons, IH. ring.
Qed.

Lemma Qsum_insert (l : list Scalar) (j : nat) (v : Scalar) :
  (j < length l)%nat ->
  (Qsum (<[j := v]> l) == Qsum l - l !!! j + v)%Q.
Proof.
  revert j. induction l as [|x l IH]; intros j Hj; cbn in Hj; [lia|].
  destruct j as [|j].
  - change (<[0%nat := v]> (x :: l)) with (v :: l).
    change ((x :: l) !!! 0%nat) with x.
    rewrite !Qsum_cons. ring.
  - change (<[S j := v]> (x :: l)) with (x :: <[j := v]> l).
    change ((x :: l) !!! S j) with (l !!! j).
    rewrite !Qsum_cons, IH by lia. ring.
Qed.

Lemma Qsum_all_zero (l : list Scalar) :
  Forall (fun v => (v == 0)%Q) l -> (Qsum l == 0)%Q.
Proof.
  induction 1 as [|x l Hx _ IH]; [reflexivity|].
  rewrite Qsum_cons, Hx, IH. ring.
Qed.

Lemma Qsum_map_ext {A} (f g : A -> Scalar) (l : list A) :
  (forall a, (f a == g a)%Q) -> (Qsum (map f l) == Qsum (map g l))%Q.
Proof.
  intros Hfg. induction l as [|a l IH]; cbn [map]; [reflexivity|].
  rewrite !Qsum_cons, IH, Hfg. reflexivity.
Qed.

Lemma Qsum_map_scale {A} (k : Scalar) (f : A -> Scalar) (l : list A) :
  (Qsum (map (fun a => k * f a) l) == k * Qsum (map f l))%Q.
Proof.
  induction l as [|a l IH]; cbn [map].
  - unfold Qsum. cbn. ring.
  - rewrite !Qsum_cons, IH. ring.
Qed.

Lemma Qsum_map_zero {A} (l : list A) :
  (Qsum (map (fun _ => 0%Q) l) == 0)%Q.
Proof.
  induction l as [|a l IH]; cbn [map]; [reflexivity|].
  rewrite Qsum_cons, IH. ring.
Qed.

Lemma memset0_sized (n : nat) (l : list Scalar) :
  length l = n -> memset0 n l = replicate n 0%Q.
Proof.
  intros Hl. unfold memset0. rewrite Hl, Nat.min_id.
  rewrite drop_ge by lia. apply app_nil_r.
Qed.

Lemma memset0_length (n : nat) (l : list Scalar) :
  length (memset0 n l) = length l.
Proof.
  unfold memset0. rewrite length_app, length_replicate, length_drop. lia.
Qed.

(** ** One output array through the two loops

    [getL] selects a local of particle [i] and [getA] the output array it
    is flushed to; [w] is what a neighbour adds to local and array together. *)
Section Accumulation.
Context `{EV : evaluator}.
Variables (self : PotentialPair) (third_law : bool).
Variables (arrays : Arrays.t) (box : BoxDim).
Variable getL : locals -> Scalar.
Variable getA : ForceCompute -> list Scalar.
Variable w : Scalar -> Scalar -> Scalar -> nat -> Scalar -> Scalar -> nat -> Scalar.

Hypothesis getL_zero : (getL (mkLocals 0 0 0 0 0) == 0)%Q.

Hypothesis step_length : forall xi yi zi typei di qi st j,
  length (getA (out (pair_body self third_law arrays box xi yi zi typei di qi
                       st j)))
  = length (getA (out st)).

Hypothesis step_total : forall xi yi zi typei di qi st j,
  (j < length (getA (out st)))%nat ->
  (Qsum (getA (out (pair_body self third_law arrays box xi yi zi typei di qi
                      st j)))
   + getL (acc_i (pair_body self third_law arrays box xi yi zi typei di qi
                    st j))
   == Qsum (getA (out st)) + getL (acc_i st) + w xi yi zi typei di qi j)%Q.

Hypothesis flush : forall full_list acc i,
  getA (fst (particle_body self third_law full_list arrays box acc i))
  = let st :=
      foldl (pair_body self third_law arrays box
               (Arrays.x arrays !!! i) (Arrays.y arrays !!! i)
               (Arrays.z arrays !!! i) (Arrays.type arrays !!! i)
               (if needsDiameter then Arrays.diameter arrays !!! i else 0%Q)
               (if needsCharge then Arrays.charge arrays !!! i else 0%Q))
        (mkLoopState (mkLocals 0 0 0 0 0) (fst acc) (snd acc))
        (full_list !!! i) in
    <[i := (getA (out st) !!! i + getL (acc_i st))%Q]> (getA (out st)).

Lemma neighbour_loop_length xi yi zi typei di qi (l : list nat) st :
  length (getA (out (foldl (pair_body self third_law arrays box
                              xi yi zi typei di qi) st l)))
  = length (getA (out st)).
Proof.
  revert st. induction l as [|j l IH]; intros st; cbn; [reflexivity|].
  rewrite IH. apply step_length.
Qed.

Lemma neighbour_loop_total xi yi zi typei di qi (l : list nat) st :
  Forall (fun j => (j < length (getA (out st)))%nat) l ->
  (Qsum (getA (out (foldl (pair_body self third_law arrays box
                             xi yi zi typei di qi) st l)))
   + getL (acc_i (foldl (pair_body self third_law arrays box
                           xi yi zi typei di qi) st l))
   == Qsum (getA (out st)) + getL (acc_i st)
      + Qsum (map (w xi yi zi typei di qi) l))%Q.
Proof.
  revert st. induction l as [|j l IH]; intros st Hl; cbn [foldl map].
  - unfold Qsum at 3. cbn. ring.
  - apply Forall_cons in Hl as [Hj Hl].
    rewrite IH by (by rewrite step_length).
    rewrite step_total by exact Hj. rewrite Qsum_cons. ring.
Qed.

Lemma particle_body_length full_list acc i :
  length (getA (fst (particle_body self third_law full_list arrays box acc i)))
  = length (getA (fst acc)).
Proof.
  rewrite flush. cbn zeta. rewrite length_insert.
  apply neighbour_loop_length.
Qed.

Lemma particle_body_total full_list acc i :
  (i < length (getA (fst acc)))%nat ->
  Forall (fun j => (j < length (getA (fst acc)))%nat) (full_list !!! i) ->
  (Qsum (getA (fst (particle_body self third_law full_list arrays box acc i)))
   == Qsum (getA (fst acc))
      + Qsum (map (w (Arrays.x arrays !!! i) (Arrays.y arrays !!! i)
                     (Arrays.z arrays !!! i) (Arrays.type arrays !!! i)
                     (if needsDiameter then Arrays.diameter arrays !!! i
                      else 0%Q)
                     (if needsCharge then Arrays.charge arrays !!! i else 0%Q))
                (full_list !!! i)))%Q.
Proof.
  intros Hi Hl. rewrite flush. cbn zeta.
  rewrite Qsum_insert by (by rewrite neighbour_loop_length).
  pose proof (neighbour_loop_total
                (Arrays.x arrays !!! i) (Arrays.y arrays !!! i)
                (Arrays.z arrays !!! i) (Arrays.type arrays !!! i)
                (if needsDiameter then Arrays.diameter arrays !!! i else 0%Q)
                (if needsCharge then Arrays.charge arrays !!! i else 0%Q)
                (full_list !!! i)
                (mkLoopState (mkLocals 0 0 0 0 0) (fst acc) (snd acc)) Hl)
    as Htot.
  cbn [out acc_i] in Htot. rewrite getL_zero in Htot.
  match goal with |- (?S - ?a + (?a + ?b) == _)%Q =>
    transitivity (S + b)%Q; [ring|] end.
  rewrite Htot. ring.
Qed.

Lemma particle_loop_length full_list (ps : list nat) acc :
  length (getA (fst (foldl (particle_body self third_law full_list arrays box)
                       acc ps)))
  = length (getA (fst acc)).
Proof.
  revert acc. induction ps as [|i ps IH]; intros acc; cbn; [reflexivity|].
  rewrite IH. apply particle_body_length.
Qed.

Lemma particle_loop_total full_list (ps : list nat) acc :
  Forall (fun i => (i < length (getA (fst acc)))%nat
                   /\ Forall (fun j => (j < length (getA (fst acc)))%nat)
                        (full_list !!! i)) ps ->
  (Qsum (getA (fst (foldl (particle_body self third_law full_list arrays box)
                      acc ps)))
   == Qsum (getA (fst acc))
      + Qsum (map (fun i =>
                     Qsum (map (w (Arrays.x arrays !!! i)
                                  (Arrays.y arrays !!! i)
                                  (Arrays.z arrays !!! i)
                                  (Arrays.type arrays !!! i)
                                  (if needsDiameter
                                   then Arrays.diameter arrays !!! i else 0%Q)
                                  (if needsCharge
                                   then Arrays.charge arrays !!! i else 0%Q))
                             (full_list !!! i))) ps))%Q.
Proof.
  revert acc. induction ps as [|i ps IH]; intros acc Hps; cbn [foldl map].
  - unfold Qsum at 3. cbn. ring.
  - apply Forall_cons in Hps as [[Hi Hl] Hps].
    rewrite IH.
    + rewrite particle_body_total by assumption. rewrite Qsum_cons. ring.
    + rewrite particle_body_length. exact Hps.
Qed.

End Accumulation.

Section WholeRun.
Context `{EV : evaluator}.

Lemma pair_body_lengths
  (self : PotentialPair) (third_law : bool) (arrays : Arrays.t) (box : BoxDim)
  (xi yi zi : Scalar) (typei : nat) (di qi : Scalar)
  (st : loop_state) (j : nat) :
  let st' := pair_body self third_law arrays box xi yi zi typei di qi st j in
  length (m_fx (out st')) = length (m_fx (out st))
  /\ length (m_fy (out st')) = length (m_fy (out st))
  /\ length (m_fz (out st')) = length (m_fz (out st))
  /\ length (m_pe (out st')) = length (m_pe (out st))
  /\ length (m_virial (out st')) = length (m_virial (out st)).
Proof.
  cbn zeta. unfold pair_body.
  destruct (Scalar_lt _ _); [|auto].
  destruct third_law; cbn [out m_fx m_fy m_fz m_pe m_virial];
    rewrite ?length_insert; auto.
Qed.

(** In half mode a pair leaves the sum of a force array and the matching
    local unchanged: what the local gains the array loses at [j]. *)
Lemma pair_body_force_total
  (self : PotentialPair) (arrays : Arrays.t) (box : BoxDim)
  (xi yi zi : Scalar) (typei : nat) (di qi : Scalar)
  (st : loop_state) (j : nat) :
  let st' := pair_body self true arrays box xi yi zi typei di qi st j in
  ((j < length (m_fx (out st)))%nat ->
   (Qsum (m_fx (out st')) + fxi (acc_i st')
    == Qsum (m_fx (out st)) + fxi (acc_i st) + 0)%Q)
  /\ ((j < length (m_fy (out st)))%nat ->
      (Qsum (m_fy (out st')) + fyi (acc_i st')
       == Qsum (m_fy (out st)) + fyi (acc_i st) + 0)%Q)
  /\ ((j < length (m_fz (out st)))%nat ->
      (Qsum (m_fz (out st')) + fzi (acc_i st')
       == Qsum (m_fz (out st)) + fzi (acc_i st) + 0)%Q).
Proof.
  cbn zeta. unfold pair_body.
  destruct (Scalar_lt _ _); cbn [out acc_i m_fx m_fy m_fz fxi fyi fzi];
    repeat split; intros Hj; rewrite ?Qsum_insert by exact Hj; ring.
Qed.

(** A pair adds its energy once to the sum of the energy array and the
    energy local in half mode, half of it in full mode. *)
Lemma pair_body_energy_total
  (self : PotentialPair) (third_law : bool) (arrays : Arrays.t) (box : BoxDim)
  (xi yi zi : Scalar) (typei : nat) (di qi : Scalar)
  (st : loop_state) (j : nat) :
  let st' := pair_body self third_law arrays box xi yi zi typei di qi st j in
  (j < length (m_pe (out st)))%nat ->
  (Qsum (m_pe (out st')) + pei (acc_i st')
   == Qsum (m_pe (out st)) + pei (acc_i st)
      + (if third_law then 1 else 1 # 2)
        * pair_energy_of self arrays box xi yi zi typei di qi j)%Q.
Proof.
  cbn zeta. intros Hj. unfold pair_body, pair_energy_of.
  destruct (Scalar_lt _ _); destruct third_law;
    cbn [out acc_i m_pe pei]; rewrite ?Qsum_insert by exact Hj; ring.
Qed.

Lemma valid_neighbours_loop (n : nat) (full_list : list (list nat)) :
  valid_neighbours n full_list ->
  Forall (fun i => (i < n)%nat
                   /\ Forall (fun j => (j < n)%nat) (full_list !!! i))
    (seq 0 n).
Proof.
  unfold valid_neighbours. rewrite !Forall_forall. intros Hv i Hi.
  split; [|by apply Hv].
  apply elem_of_seq in Hi. lia.
Qed.

(** ** Newton's third law over a run *)

(** X1.  In half storage mode, when the output arrays hold one entry per
    particle and every listed neighbour is a particle, the forces that
    [computeForces] leaves in the arrays sum to zero on each axis, whatever
    the evaluator, the tables and the box: the pair forces cancel. *)
Theorem half_mode_forces_sum_to_zero
  (timestep : nat) (self : PotentialPair) :
  getStorageMode (m_nlist self) = half ->
  outputs_sized self ->
  valid_neighbours (Arrays.nparticles (acquireReadOnly (m_pdata self)))
    (getList (m_nlist self) timestep) ->
  (Qsum (m_fx (fst (computeForces_run timestep self))) == 0)%Q
  /\ (Qsum (m_fy (fst (computeForces_run timestep self))) == 0)%Q
  /\ (Qsum (m_fz (fst (computeForces_run timestep self))) == 0)%Q.
Proof.
  intros Hhalf (Hx & Hy & Hz & _) Hv.
  apply valid_neighbours_loop in Hv.
  unfold computeForces_run. rewrite Hhalf. cbn [storageMode_eqb].
  rewrite (memset0_sized _ _ Hx), (memset0_sized _ _ Hy),
    (memset0_sized _ _ Hz).
  set (n := Arrays.nparticles (acquireReadOnly (m_pdata self))) in *.
  set (arrays := acquireReadOnly (m_pdata self)).
  set (box := getBox (m_pdata self)).
  set (fl := getList (m_nlist self) timestep) in *.
  match goal with |- context [foldl _ ?a (seq 0 n)] => set (acc := a) end.
  assert (Hzero : forall ps : list nat,
            (Qsum (map (fun i : nat =>
                          Qsum (map (fun _ : nat => 0%Q) (fl !!! i))) ps)
             == 0)%Q).
  { intros ps.
    rewrite (Qsum_map_ext _ (fun _ => 0%Q))
      by (intros i; apply Qsum_map_zero).
    apply Qsum_map_zero. }
  repeat split.
  - rewrite (particle_loop_total self true arrays box fxi m_fx
               (fun _ _ _ _ _ _ _ => 0%Q)).
    + cbn [acc fst m_fx]. rewrite Qsum_replicate_zero, Hzero. ring.
    + reflexivity.
    + intros. apply pair_body_lengths.
    + intros. by apply pair_body_force_total.
    + reflexivity.
    + cbn [acc fst m_fx]. by rewrite length_replicate.
  - rewrite (particle_loop_total self true arrays box fyi m_fy
               (fun _ _ _ _ _ _ _ => 0%Q)).
    + cbn [acc fst m_fy]. rewrite Qsum_replicate_zero, Hzero. ring.
    + reflexivity.
    + intros. apply pair_body_lengths.
    + intros. by apply pair_body_force_total.
    + reflexivity.
    + cbn [acc fst m_fy]. by rewrite length_replicate.
  - rewrite (particle_loop_total self true arrays box fzi m_fz
               (fun _ _ _ _ _ _ _ => 0%Q)).
    + cbn [acc fst m_fz]. rewrite Qsum_replicate_zero, Hzero. ring.
    + reflexivity.
    + intros. apply pair_body_lengths.
    + intros. by apply pair_body_force_total.
    + reflexivity.
    + cbn [acc fst m_fz]. by rewrite length_replicate.
Qed.

(** ** The summed energy *)

Lemma run_energy_length (timestep : nat) (self : PotentialPair) :
  length (m_pe (fst (computeForces_run timestep self)))
  = length (m_pe (m_force self)).
Proof.
  unfold computeForces_run.
  rewrite (particle_loop_length self _ _ _ pei m_pe).
  - cbn [fst m_pe]. apply memset0_length.
  - intros. apply pair_body_lengths.
  - reflexivity.
Qed.

(** X2.  When the output arrays hold one entry per particle and every
    listed neighbour is a particle, the potential-energy accumulators left
    by [computeForces] sum to the energy of the listed pairs: each listed
    pair counts once in half mode and for one half in full mode, where the
    list presents it from both sides.  [getLogValue] returns that sum for
    the log name of the engine. *)
Theorem summed_energy_counts_listed_pairs
  (timestep : nat) (self : PotentialPair) :
  outputs_sized self ->
  valid_neighbours (Arrays.nparticles (acquireReadOnly (m_pdata self)))
    (getList (m_nlist self) timestep) ->
  (Qsum (m_pe (fst (computeForces_run timestep self)))
   == (if storageMode_eqb (getStorageMode (m_nlist self)) half
       then 1 else 1 # 2) * listed_pair_energy timestep self)%Q
  /\ snd (getLogValue (m_log_name self) timestep self)
     = inr (Qsum (m_pe (fst (computeForces_run timestep self)))).
Proof.
  intros Hsized Hv.
  pose proof Hsized as (_ & _ & _ & Hp & _).
  split.
  - apply valid_neighbours_loop in Hv.
    unfold computeForces_run, listed_pair_energy.
    rewrite (memset0_sized _ (m_pe (m_force self)) Hp).
    set (n := Arrays.nparticles (acquireReadOnly (m_pdata self))) in *.
    set (arrays := acquireReadOnly (m_pdata self)).
    set (box := getBox (m_pdata self)).
    set (fl := getList (m_nlist self) timestep) in *.
    set (third_law := storageMode_eqb (getStorageMode (m_nlist self)) half).
    match goal with |- context [foldl _ ?a (seq 0 n)] => set (acc := a) end.
    rewrite (particle_loop_total self third_law arrays box pei m_pe
               (fun xi yi zi typei di qi j =>
                  ((if third_law then 1 else 1 # 2)
                   * pair_energy_of self arrays box xi yi zi typei di qi j)%Q)).
    + cbn [acc fst m_pe]. rewrite Qsum_replicate_zero.
      rewrite <- Qsum_map_scale.
      rewrite Qplus_0_l. apply Qsum_map_ext. intros i.
      apply Qsum_map_scale.
    + reflexivity.
    + intros. apply pair_body_lengths.
    + intros. by apply pair_body_energy_total.
    + reflexivity.
    + cbn [acc fst m_pe]. by rewrite length_replicate.
  - unfold getLogValue, bind, this. rewrite String.eqb_refl.
    unfold compute, computeForces, assign, calcEnergySum, bind, this, ret.
    cbn [snd fst set_m_force m_pdata m_force]. f_equal.
    unfold Qsum. f_equal. apply take_ge.
    rewrite run_energy_length. lia.
Qed.

(** ** Stale outputs and repeated runs *)

Lemma run_lengths (timestep : nat) (self : PotentialPair) :
  let f := fst (computeForces_run timestep self) in
  length (m_fx f) = length (m_fx (m_force self))
  /\ length (m_fy f) = length (m_fy (m_force self))
  /\ length (m_fz f) = length (m_fz (m_force self))
  /\ length (m_pe f) = length (m_pe (m_force self))
  /\ length (m_virial f) = length (m_virial (m_force self)).
Proof.
  cbn zeta. unfold computeForces_run. repeat split.
  - rewrite (particle_loop_length self _ _ _ fxi m_fx);
      [apply memset0_length|intros; apply pair_body_lengths|reflexivity].
  - rewrite (particle_loop_length self _ _ _ fyi m_fy);
      [apply memset0_length|intros; apply pair_body_lengths|reflexivity].
  - rewrite (particle_loop_length self _ _ _ fzi m_fz);
      [apply memset0_length|intros; apply pair_body_lengths|reflexivity].
  - rewrite (particle_loop_length self _ _ _ pei m_pe);
      [apply memset0_length|intros; apply pair_body_lengths|reflexivity].
  - rewrite (particle_loop_length self _ _ _ viriali m_virial);
      [apply memset0_length|intros; apply pair_body_lengths|reflexivity].
Qed.

(** X3.  When the output arrays hold one entry per particle, what
    [computeForces] leaves in them does not depend on what they held
    before: the arrays are cleared first.  The arrays keep their size, and
    running [computeForces] again for the same timestep changes nothing. *)
Theorem computeForces_forgets_previous_outputs
  (timestep : nat) (self : PotentialPair) (stale : ForceCompute) :
  outputs_sized self -> outputs_sized (set_m_force stale self) ->
  computeForces_run timestep (set_m_force stale self)
  = computeForces_run timestep self
  /\ outputs_sized (exec (computeForces timestep) self)
  /\ exec (computeForces timestep) (exec (computeForces timestep) self)
     = exec (computeForces timestep) self.
Proof.
  intros (Hx & Hy & Hz & Hp & Hv) Hstale.
  assert (Hforget : forall g, outputs_sized (set_m_force g self) ->
            computeForces_run timestep (set_m_force g self)
            = computeForces_run timestep self).
  { intros g (Gx & Gy & Gz & Gp & Gv).
    cbn [set_m_force m_force m_pdata] in Gx, Gy, Gz, Gp, Gv.
    unfold computeForces_run.
    cbn [set_m_force m_force m_pdata m_nlist].
    rewrite (memset0_sized _ _ Gx), (memset0_sized _ _ Gy),
      (memset0_sized _ _ Gz), (memset0_sized _ _ Gp), (memset0_sized _ _ Gv).
    rewrite (memset0_sized _ _ Hx), (memset0_sized _ _ Hy),
      (memset0_sized _ _ Hz), (memset0_sized _ _ Hp), (memset0_sized _ _ Hv).
    reflexivity. }
  assert (Hsized : outputs_sized (exec (computeForces timestep) self)).
  { destruct (run_lengths timestep self) as (Lx & Ly & Lz & Lp & Lv).
    unfold outputs_sized, exec, computeForces, assign.
    cbn [fst set_m_force m_force m_pdata].
    repeat split; congruence. }
  split; [by apply Hforget|]. split; [exact Hsized|].
  unfold exec, computeForces, assign in *. cbn [fst] in *.
  rewrite Hforget by exact Hsized. reflexivity.
Qed.

(** ** A run without interaction *)

Lemma neighbour_loop_beyond_cutoff
  (self : PotentialPair) (third_law : bool) (arrays : Arrays.t) (box : BoxDim)
  (xi yi zi : Scalar) (typei : nat) (di qi : Scalar)
  (l : list nat) (st : loop_state) :
  Forall (fun j =>
            Scalar_lt
              (rsq_of (pair_separation box xi yi zi (Arrays.x arrays !!! j)
                         (Arrays.y arrays !!! j) (Arrays.z arrays !!! j)))
              (get_rcutsq self typei (Arrays.type arrays !!! j)) = false) l ->
  foldl (pair_body self third_law arrays box xi yi zi typei di qi) st l = st.
Proof.
  induction 1 as [|j l Hj _ IH]; cbn [foldl]; [reflexivity|].
  unfold pair_body at 2. rewrite Hj. exact IH.
Qed.

Lemma flush_zero (n i : nat) :
  (i < n)%nat ->
  <[i := (replicate n 0%Q !!! i + 0)%Q]> (replicate n 0%Q) = replicate n 0%Q.
Proof.
  intros Hi. apply list_insert_id.
  rewrite list_lookup_total_alt, lookup_replicate_2 by exact Hi.
  reflexivity.
Qed.

(** X4.  When the output arrays hold one entry per particle and no listed
    pair is within the cutoff of its type pair, [computeForces] leaves every
    force, energy and virial entry at zero and executes no division, in
    either storage mode. *)
Theorem no_pair_within_cutoff_gives_zero
  (timestep : nat) (self : PotentialPair) :
  outputs_sized self -> beyond_cutoff_everywhere timestep self ->
  computeForces_run timestep self
  = (zero_outputs (Arrays.nparticles (acquireReadOnly (m_pdata self))), []).
Proof.
  intros (Hx & Hy & Hz & Hp & Hv) Hfar.
  unfold computeForces_run, beyond_cutoff_everywhere in *.
  rewrite (memset0_sized _ _ Hx), (memset0_sized _ _ Hy),
    (memset0_sized _ _ Hz), (memset0_sized _ _ Hp), (memset0_sized _ _ Hv).
  set (n := Arrays.nparticles (acquireReadOnly (m_pdata self))) in *.
  fold (zero_outputs n).
  assert (Hbound : Forall (fun i => (i < n)%nat) (seq 0 n)).
  { apply Forall_forall. intros i Hi. apply elem_of_seq in Hi. lia. }
  revert Hfar Hbound. generalize (seq 0 n). intros ps.
  induction ps as [|i ps IH]; intros Hfar Hbound; cbn [foldl];
    [reflexivity|].
  apply Forall_cons in Hfar as [Hi Hfar].
  apply Forall_cons in Hbound as [Hin Hbound].
  rewrite <- (IH Hfar Hbound) at 2. f_equal.
  unfold particle_body. cbn [fst snd].
  rewrite neighbour_loop_beyond_cutoff by exact Hi.
  cbn [acc_i out executed_divisions fxi fyi fzi pei viriali zero_outputs
       m_fx m_fy m_fz m_pe m_virial].
  rewrite !flush_zero by exact Hin. reflexivity.
Qed.

End WholeRun.

Section ShiftModes.
Context `{EV : evaluator}.

Lemma foldl_pointwise {A B} (f g : A -> B -> A) (l : list B) (a : A) :
  (forall a b, f a b = g a b) -> foldl f a l = foldl g a l.
Proof.
  intros Hfg. revert a. induction l as [|b l IH]; intros a; cbn;
    [reflexivity|].
  by rewrite Hfg, IH.
Qed.

Lemma pair_body_ignores_onset_table
  (self : PotentialPair) (v : list Scalar) (third_law : bool)
  (arrays : Arrays.t) (box : BoxDim)
  (xi yi zi : Scalar) (typei : nat) (di qi : Scalar)
  (st : loop_state) (j : nat) :
  m_shift_mode self <> xplor ->
  pair_body (set_m_ronsq v self) third_law arrays box xi yi zi typei di qi st j
  = pair_body self third_law arrays box xi yi zi typei di qi st j.
Proof.
  intros Hmode. unfold pair_body, read_ronsq, get_rcutsq, get_params.
  cbn [set_m_ronsq m_shift_mode m_rcutsq m_params m_typpair_idx].
  destruct (m_shift_mode self); [reflexivity|reflexivity|congruence].
Qed.

(** X5.  Unless the shift mode is xplor, the onset table plays no part:
    after [setRon], with any arguments, [computeForces] leaves the same
    outputs and executes the same divisions (none) as before it. *)
Theorem onset_only_matters_in_xplor_mode
  (timestep : nat) (self : PotentialPair) (a b : nat) (ron : Scalar) :
  m_shift_mode self <> xplor ->
  computeForces_run timestep (exec (setRon a b ron) self)
  = computeForces_run timestep self
  /\ snd (computeForces_run timestep self) = [].
Proof.
  intros Hmode. split.
  - unfold exec, setRon, bind, this, throw, assign.
    destruct (_ || _); cbn [fst]; [reflexivity|].
    generalize (<[Index2D_call (m_typpair_idx self) a b := (ron * ron)%Q]>
                  (m_ronsq self)).
    intros v.
    assert (Hloop : forall tl xi yi zi typei di qi st l,
              foldl (pair_body (set_m_ronsq v self) tl
                       (acquireReadOnly (m_pdata self)) (getBox (m_pdata self))
                       xi yi zi typei di qi) st l
              = foldl (pair_body self tl
                         (acquireReadOnly (m_pdata self))
                         (getBox (m_pdata self))
                         xi yi zi typei di qi) st l).
    { intros. apply foldl_pointwise. intros st' j.
      by apply pair_body_ignores_onset_table. }
    unfold computeForces_run.
    cbn [set_m_ronsq m_nlist m_pdata m_force].
    apply foldl_pointwise. intros acc i. unfold particle_body.
    rewrite Hloop. reflexivity.
  - unfold computeForces_run.
    match goal with |- snd (foldl ?f ?a ?l) = [] =>
      assert (Hnil : snd a = []) by reflexivity;
      revert Hnil; generalize a; generalize l end.
    intros ps. induction ps as [|i ps IH]; intros acc Hacc; cbn [foldl];
      [exact Hacc|].
    apply IH. unfold particle_body. cbn [snd].
    revert Hacc. generalize (mkLocals 0 0 0 0 0). generalize (fst acc).
    generalize (snd acc). generalize (getList (m_nlist self) timestep !!! i).
    intros l. induction l as [|j l IHl]; intros ds f loc Hds; cbn [foldl];
      [exact Hds|].
    unfold pair_body at 2.
    destruct (Scalar_lt _ _); [|by apply IHl].
    rewrite pair_interaction_raw by (by left).
    cbn [divisors]. rewrite app_nil_r.
    match goal with |- context [mkLoopState ?a' ?f' (executed_divisions _)] =>
      apply (IHl ds f' a' Hds) end.
Qed.

(** X6.  In xplor mode a pair whose type pair has its onset beyond its
    cutoff ([rcutsq < ronsq]) is processed exactly as in shift mode, and one
    whose onset equals its cutoff exactly as in no-shift mode: same locals,
    same writes, no division. *)
Theorem xplor_with_late_onset_is_shift
  (self : PotentialPair) (third_law : bool) (arrays : Arrays.t) (box : BoxDim)
  (xi yi zi : Scalar) (typei : nat) (di qi : Scalar)
  (st : loop_state) (j : nat) :
  m_shift_mode self = xplor ->
  ((get_rcutsq self typei (Arrays.type arrays !!! j)
    < get_ronsq self typei (Arrays.type arrays !!! j))%Q ->
   pair_body self third_law arrays box xi yi zi typei di qi st j
   = pair_body (set_m_shift_mode shift self) third_law arrays box
       xi yi zi typei di qi st j)
  /\ ((get_ronsq self typei (Arrays.type arrays !!! j)
       == get_rcutsq self typei (Arrays.type arrays !!! j))%Q ->
      pair_body self third_law arrays box xi yi zi typei di qi st j
      = pair_body (set_m_shift_mode no_shift self) third_law arrays box
          xi yi zi typei di qi st j).
Proof.
  intros Hmode.
  split; intros Hon; unfold pair_body, read_ronsq, get_rcutsq, get_params;
    cbn [set_m_shift_mode m_shift_mode m_rcutsq m_params m_typpair_idx
         energyShiftMode_eqb];
    rewrite Hmode; cbn [energyShiftMode_eqb];
    fold (get_rcutsq self typei (Arrays.type arrays !!! j)) in *;
    fold (get_params self typei (Arrays.type arrays !!! j));
    destruct (Scalar_lt _ (get_rcutsq self typei (Arrays.type arrays !!! j)))
      eqn:Hcut; try reflexivity;
    apply Scalar_lt_true in Hcut;
    rewrite (pair_interaction_raw xplor) by (right; lra);
    rewrite pair_interaction_raw by (left; discriminate);
    unfold energy_shift.
  - apply Scalar_gt_true in Hon. unfold get_ronsq in *. rewrite Hon.
    reflexivity.
  - assert (Hle : (get_ronsq self typei (Arrays.type arrays !!! j)
                   <= get_rcutsq self typei (Arrays.type arrays !!! j))%Q)
      by lra.
    apply Scalar_gt_false in Hle. unfold get_ronsq in *. rewrite Hle.
    reflexivity.
Qed.

End ShiftModes.

(** * The direction names of MuellerPlatheFlow *)

Section DirectionNames.
Import MuellerPlatheFlow.
Context `{DE : Direction_enum}.

Lemma Direction_eqb_refl (a : Direction) : Direction_eqb a a = true.
Proof. by apply Direction_eqb_eq. Qed.

Lemma Direction_eqb_neq (a b : Direction) :
  a <> b -> Direction_eqb a b = false.
Proof.
  intros Hne. destruct (Direction_eqb a b) eqn:E; [|reflexivity].
  apply Direction_eqb_eq in E. contradiction.
Qed.

(** X7.  The two conversions between directions and their names are
    inverse of each other: the enumerators X, Y and Z are named "X", "Y" and
    "Z"; whenever one conversion succeeds the other one leads back; a value
    that is no enumerator and a string that is none of the three names
    (the test is case sensitive) are refused with the [runtime_error]
    "Direction must be X, Y, or Z".  A getter of an updater whose direction
    was parsed from a name returns that name. *)
Theorem direction_names_round_trip :
  (getStringFromDirection X = inr "X"%string
   /\ getStringFromDirection Y = inr "Y"%string
   /\ getStringFromDirection Z = inr "Z"%string)
  /\ (forall d s, getStringFromDirection d = inr s ->
        getDirectionFromString s = inr d)
  /\ (forall s d, getDirectionFromString s = inr d ->
        getStringFromDirection d = inr s)
  /\ (forall d, d <> X -> d <> Y -> d <> Z ->
        getStringFromDirection d
        = inl (runtime_error "Direction must be X, Y, or Z"))
  /\ (forall s, s <> "X"%string -> s <> "Y"%string -> s <> "Z"%string ->
        getDirectionFromString s
        = inl (runtime_error "Direction must be X, Y, or Z"))
  /\ (forall self s,
        getDirectionFromString s = inr (m_slab_direction self) ->
        getSlabDirection self = inr s)
  /\ (forall self s,
        getDirectionFromString s = inr (m_flow_direction self) ->
        getFlowDirection self = inr s).
Proof.
  pose proof X_neq_Y as Hxy. pose proof Y_neq_Z as Hyz.
  pose proof X_neq_Z as Hxz.
  assert (Hnames : getStringFromDirection X = inr "X"%string
                   /\ getStringFromDirection Y = inr "Y"%string
                   /\ getStringFromDirection Z = inr "Z"%string).
  { unfold getStringFromDirection.
    rewrite !Direction_eqb_refl.
    rewrite (Direction_eqb_neq Y X), (Direction_eqb_neq Z X),
      (Direction_eqb_neq Z Y) by congruence.
    auto. }
  assert (Hback : forall s d, getDirectionFromString s = inr d ->
                    getStringFromDirection d = inr s).
  { intros s d. unfold getDirectionFromString.
    destruct (String.eqb_spec s "X") as [->|_];
      [intros [= <-]; apply Hnames|].
    destruct (String.eqb_spec s "Y") as [->|_];
      [intros [= <-]; apply Hnames|].
    destruct (String.eqb_spec s "Z") as [->|_];
      [intros [= <-]; apply Hnames|].
    discriminate. }
  split; [exact Hnames|]. split; [|split; [exact Hback|split; [|split]]].
  - intros d s. unfold getStringFromDirection.
    destruct (Direction_eqb d X) eqn:Ex;
      [apply Direction_eqb_eq in Ex; subst; by intros [= <-]|].
    destruct (Direction_eqb d Y) eqn:Ey;
      [apply Direction_eqb_eq in Ey; subst; by intros [= <-]|].
    destruct (Direction_eqb d Z) eqn:Ez;
      [apply Direction_eqb_eq in Ez; subst; by intros [= <-]|].
    discriminate.
  - intros d Hx Hy Hz. unfold getStringFromDirection.
    by rewrite !Direction_eqb_neq.
  - intros s Hx Hy Hz. unfold getDirectionFromString.
    apply String.eqb_neq in Hx, Hy, Hz. by rewrite Hx, Hy, Hz.
  - split; intros self s Hs; by apply Hback.
Qed.

End DirectionNames.

Lemma direction_names_round_trip_witness :
  MuellerPlatheFlow.getDirectionFromString
    (H := MuellerPlatheFlow.numbered) "Y"
  = inr 1%nat
  /\ MuellerPlatheFlow.getStringFromDirection
       (H := MuellerPlatheFlow.numbered) 1%nat
     = inr "Y"%string
  /\ MuellerPlatheFlow.getStringFromDirection
       (H := MuellerPlatheFlow.numbered) 7%nat
     = inl (runtime_error "Direction must be X, Y, or Z")
  /\ MuellerPlatheFlow.getDirectionFromString
       (H := MuellerPlatheFlow.numbered) "y"
     = inl (runtime_error "Direction must be X, Y, or Z").
Proof.
  destruct (direction_names_round_trip (DE := MuellerPlatheFlow.numbered))
    as (_ & _ & Hback & Hd & Hs & _).
  assert (Hy : MuellerPlatheFlow.getDirectionFromString
                 (H := MuellerPlatheFlow.numbered) "Y" = inr 1%nat)
    by reflexivity.
  split; [exact Hy|]. split; [exact (Hback "Y"%string 1%nat Hy)|].
  split.
  - apply (Hd 7%nat); discriminate.
  - apply (Hs "y"%string); discriminate.
Defined.

(** * The total external energy *)

Lemma Qsum_app (l1 l2 : list Scalar) :
  (Qsum (l1 ++ l2) == Qsum l1 + Qsum l2)%Q.
Proof.
  induction l1 as [|a l1 IH]; cbn [app].
  - unfold Qsum at 2. cbn. ring.
  - rewrite !Qsum_cons, IH. ring.
Qed.

Lemma foldl_add_terms {A} (g : A -> Scalar) (l : list A) (a : Scalar) :
  (foldl (fun t i => (t + g i)%Q) a l == a + Qsum (map g l))%Q.
Proof.
  revert a. induction l as [|i l IH]; intros a; cbn [foldl map].
  - unfold Qsum. cbn. ring.
  - rewrite IH, Qsum_cons. ring.
Qed.

Section TotalEnergy.
Import ExternalPotential.
Context `{MA : Math}.

Lemma totalEnergy_as_sum (self : potential) (pd : ParticleData)
  (trial : bool) :
  (totalEnergy self pd trial
   == Qsum (map (particle_term self pd trial) (seq 0 (getN pd))))%Q.
Proof.
  unfold totalEnergy. rewrite foldl_add_terms. ring.
Qed.

(** X8.  The base class, whose [particleEnergy] returns 0, has total energy
    exactly 0 on every system and for either value of [trial].  So has, for
    [trial = false] (the default argument), every potential that follows
    the documented convention of returning 0 for current configurations. *)
Theorem totalEnergy_of_silent_potential :
  (forall pd trial, totalEnergy ExternalPotential pd trial = 0%Q)
  /\ (forall (self : potential) pd,
        (forall box type_i r_i q_i charge_i,
           particleEnergy self box type_i r_i q_i charge_i false = 0%Q) ->
        totalEnergy self pd false = 0%Q).
Proof.
  assert (Hsilent : forall (self : potential) pd trial,
            (forall box type_i r_i q_i charge_i,
               particleEnergy self box type_i r_i q_i charge_i trial = 0%Q) ->
            totalEnergy self pd trial = 0%Q).
  { intros self pd trial Hzero. unfold totalEnergy.
    generalize (seq 0 (getN pd)). intros l.
    induction l as [|i l IH]; cbn [foldl]; [reflexivity|].
    unfold particle_term at 2. rewrite Hzero. exact IH. }
  split.
  - intros pd trial. by apply Hsilent.
  - intros self pd Hzero. by apply Hsilent.
Qed.

(** X9.  The total energy is extensive: for two sets of particles in the
    same box, the first with one array entry per particle, the total over
    the particles put together is the sum of the two totals. *)
Theorem totalEnergy_of_joined_particles
  (self : potential) (a b : ParticleData) (trial : bool) :
  arrays_sized a -> getGlobalBox b = getGlobalBox a ->
  (totalEnergy self (join a b) trial
   == totalEnergy self a trial + totalEnergy self b trial)%Q.
Proof.
  intros (Hp & Ho & Hc) Hbox.
  rewrite !totalEnergy_as_sum. cbn [join getN].
  rewrite seq_app, map_app, Qsum_app. cbn [Nat.add].
  assert (Hfirst : map (particle_term self (join a b) trial) (seq 0 (getN a))
                   = map (particle_term self a trial) (seq 0 (getN a))).
  { apply map_ext_in. intros i Hi. apply in_seq in Hi.
    unfold particle_term, join. cbn [getPositions getOrientationArray
      getCharges getGlobalBox].
    rewrite !lookup_total_app_l by lia. reflexivity. }
  assert (Hsecond : map (particle_term self (join a b) trial)
                      (seq (getN a) (getN b))
                    = map (particle_term self b trial) (seq 0 (getN b))).
  { rewrite <- (Nat.add_0_r (getN a)) at 1.
    rewrite <- fmap_add_seq. rewrite <- list_fmap_compose.
    apply map_ext_in. intros i Hi.
    unfold particle_term, join, compose. cbn [getPositions
      getOrientationArray getCharges getGlobalBox].
    rewrite !lookup_total_app_r by lia.
    rewrite Hp, Ho, Hc, Hbox.
    replace (getN a + i - getN a)%nat with i by lia. reflexivity. }
  rewrite Hfirst, Hsecond. reflexivity.
Qed.

End TotalEnergy.

(** * Full storage mode: every particle on its own *)

Section Scatter.
Variables (A : Type) (pb : A -> nat -> A) (arr : A -> list Scalar).
Variable c : nat -> Scalar.

Hypothesis pb_writes_own : forall acc i,
  arr (pb acc i) = <[i := (arr acc !!! i + c i)%Q]> (arr acc).

Lemma scatter_lookup (ps : list nat) (acc : A) (k : nat) :
  NoDup ps -> (k < length (arr acc))%nat ->
  arr (foldl pb acc ps) !!! k
  = if decide (k ∈ ps) then (arr acc !!! k + c k)%Q else arr acc !!! k.
Proof.
  revert acc. induction ps as [|i ps IH]; intros acc Hnd Hk; cbn [foldl].
  - destruct (decide (k ∈ [])) as [Hin|_]; [|reflexivity].
    by apply not_elem_of_nil in Hin.
  - apply NoDup_cons in Hnd as [Hi Hnd].
    rewrite IH by (rewrite ?pb_writes_own, ?length_insert; assumption).
    rewrite pb_writes_own.
    destruct (decide (k = i)) as [->|Hne].
    + rewrite list_lookup_total_insert_eq by exact Hk.
      destruct (decide (i ∈ ps)) as [Hin|_]; [contradiction|].
      destruct (decide (i ∈ i :: ps)) as [_|Hout]; [reflexivity|].
      exfalso. apply Hout. apply list_elem_of_here.
    + rewrite list_lookup_total_insert_ne by congruence.
      destruct (decide (k ∈ ps)) as [Hin|Hout];
        destruct (decide (k ∈ i :: ps)) as [Hin'|Hout']; try reflexivity.
      * exfalso. apply Hout'. by apply list_elem_of_further.
      * exfalso. apply elem_of_cons in Hin' as [?|?]; contradiction.
Qed.

End Scatter.

Section FullMode.
Context `{EV : evaluator}.

Lemma full_pair_body_out
  (self : PotentialPair) (arrays : Arrays.t) (box : BoxDim)
  (xi yi zi : Scalar) (typei : nat) (di qi : Scalar)
  (st : loop_state) (j : nat) :
  out (pair_body self false arrays box xi yi zi typei di qi st j) = out st.
Proof. unfold pair_body. by destruct (Scalar_lt _ _). Qed.

Lemma full_pair_body_locals
  (self : PotentialPair) (arrays : Arrays.t) (box : BoxDim)
  (xi yi zi : Scalar) (typei : nat) (di qi : Scalar)
  (st st' : loop_state) (j : nat) :
  acc_i st = acc_i st' ->
  acc_i (pair_body self false arrays box xi yi zi typei di qi st j)
  = acc_i (pair_body self false arrays box xi yi zi typei di qi st' j).
Proof.
  intros Heq. unfold pair_body.
  destruct (Scalar_lt _ _); cbn [acc_i]; by rewrite Heq.
Qed.

Lemma full_loop_out_locals
  (self : PotentialPair) (arrays : Arrays.t) (box : BoxDim)
  (xi yi zi : Scalar) (typei : nat) (di qi : Scalar)
  (l : list nat) (st st' : loop_state) :
  acc_i st = acc_i st' ->
  out (foldl (pair_body self false arrays box xi yi zi typei di qi) st l)
  = out st
  /\ acc_i (foldl (pair_body self false arrays box xi yi zi typei di qi) st l)
     = acc_i (foldl (pair_body self false arrays box xi yi zi typei di qi)
                st' l).
Proof.
  revert st st'. induction l as [|j l IH]; intros st st' Heq; cbn [foldl];
    [auto|].
  destruct (IH _ _ (full_pair_body_locals self arrays box xi yi zi typei
                      di qi st st' j Heq)) as [Hout Hloc].
  split; [|exact Hloc]. rewrite Hout. apply full_pair_body_out.
Qed.

Lemma full_particle_body
  (self : PotentialPair) (full_list : list (list nat)) (arrays : Arrays.t)
  (box : BoxDim) (acc : ForceCompute * list Scalar) (i : nat) :
  let f := fst acc in
  let a := own_contributions self arrays box full_list i in
  fst (particle_body self false full_list arrays box acc i)
  = mkForceCompute
      (<[i := (m_fx f !!! i + fxi a)%Q]> (m_fx f))
      (<[i := (m_fy f !!! i + fyi a)%Q]> (m_fy f))
      (<[i := (m_fz f !!! i + fzi a)%Q]> (m_fz f))
      (<[i := (m_pe f !!! i + pei a)%Q]> (m_pe f))
      (<[i := (m_virial f !!! i + viriali a)%Q]> (m_virial f)).
Proof.
  cbn zeta. unfold particle_body, own_contributions. cbn [fst].
  match goal with
  | |- context [foldl (pair_body self false arrays box ?xi ?yi ?zi ?ti
                         ?di ?qi) ?s0 ?l] =>
    destruct (full_loop_out_locals self arrays box xi yi zi ti di qi l s0
                (mkLoopState (mkLocals 0 0 0 0 0) (zero_outputs 0) [])
                eq_refl) as [Hout Hloc]
  end.
  rewrite Hout, Hloc. reflexivity.
Qed.

(** X10.  In full storage mode, when the output arrays hold one entry per
    particle, the force, energy and virial that [computeForces] leaves for a
    particle are what its own neighbour list contributes, added to zero:
    they do not depend on the neighbour lists of the other particles. *)
Theorem full_mode_outputs_are_local
  (timestep : nat) (self : PotentialPair) (i : nat) :
  getStorageMode (m_nlist self) = full ->
  outputs_sized self ->
  (i < Arrays.nparticles (acquireReadOnly (m_pdata self)))%nat ->
  let f := fst (computeForces_run timestep self) in
  let a := own_contributions self (acquireReadOnly (m_pdata self))
             (getBox (m_pdata self)) (getList (m_nlist self) timestep) i in
  m_fx f !!! i = (0 + fxi a)%Q
  /\ m_fy f !!! i = (0 + fyi a)%Q
  /\ m_fz f !!! i = (0 + fzi a)%Q
  /\ m_pe f !!! i = (0 + pei a)%Q
  /\ m_virial f !!! i = (0 + viriali a)%Q.
Proof.
  intros Hfull (Hx & Hy & Hz & Hp & Hv) Hi. cbn zeta.
  unfold computeForces_run. rewrite Hfull. cbn [storageMode_eqb].
  rewrite (memset0_sized _ _ Hx), (memset0_sized _ _ Hy),
    (memset0_sized _ _ Hz), (memset0_sized _ _ Hp), (memset0_sized _ _ Hv).
  set (n := Arrays.nparticles (acquireReadOnly (m_pdata self))) in *.
  set (arrays := acquireReadOnly (m_pdata self)).
  set (box := getBox (m_pdata self)).
  set (fl := getList (m_nlist self) timestep).
  set (pb := particle_body self false fl arrays box).
  assert (Hin : i ∈ seq 0 n) by (apply elem_of_seq; lia).
  assert (Hzero : replicate n 0%Q !!! i = 0%Q).
  { by rewrite list_lookup_total_alt, lookup_replicate_2. }
  assert (Hone : forall (getA : ForceCompute -> list Scalar)
                   (getL : locals -> Scalar),
            (forall acc k,
               getA (fst (pb acc k))
               = <[k := (getA (fst acc) !!! k
                         + getL (own_contributions self arrays box fl k))%Q]>
                   (getA (fst acc))) ->
            forall acc, getA (fst acc) = replicate n 0%Q ->
            getA (fst (foldl pb acc (seq 0 n))) !!! i
            = (0 + getL (own_contributions self arrays box fl i))%Q).
  { intros getA getL Hwrite acc Hacc.
    rewrite (scatter_lookup _ pb (fun acc => getA (fst acc))
               (fun k => getL (own_contributions self arrays box fl k))
               Hwrite (seq 0 n) acc i (NoDup_seq 0 n))
      by (rewrite Hacc, length_replicate; exact Hi).
    destruct (decide (i ∈ seq 0 n)); [|contradiction].
    by rewrite Hacc, Hzero. }
  repeat split.
  - apply (Hone m_fx fxi); [|reflexivity].
    intros acc k. unfold pb. by rewrite full_particle_body.
  - apply (Hone m_fy fyi); [|reflexivity].
    intros acc k. unfold pb. by rewrite full_particle_body.
  - apply (Hone m_fz fzi); [|reflexivity].
    intros acc k. unfold pb. by rewrite full_particle_body.
  - apply (Hone m_pe pei); [|reflexivity].
    intros acc k. unfold pb. by rewrite full_particle_body.
  - apply (Hone m_virial viriali); [|reflexivity].
    intros acc k. unfold pb. by rewrite full_particle_body.
Qed.

End FullMode.

(** * The whole-run theorems at concrete inputs *)

Lemma half_mode_forces_sum_to_zero_witness :
  getStorageMode (m_nlist half_engine) = half
  /\ outputs_sized half_engine
  /\ valid_neighbours 2 (getList (m_nlist half_engine) 0)
  /\ (Qsum (m_fx (fst (computeForces_run 0 half_engine))) == 0)%Q.
Proof.
  assert (H1 : getStorageMode (m_nlist half_engine) = half) by reflexivity.
  assert (H2 : outputs_sized half_engine) by (repeat split; reflexivity).
  assert (H3 : valid_neighbours 2 (getList (m_nlist half_engine) 0))
    by (unfold valid_neighbours; cbn; repeat constructor).
  destruct (half_mode_forces_sum_to_zero 0 half_engine H1 H2 H3) as (Hx & _).
  split; [exact H1|]. split; [exact H2|]. split; [exact H3|exact Hx].
Defined.

Lemma summed_energy_counts_listed_pairs_witness :
  (outputs_sized half_engine
   /\ valid_neighbours 2 (getList (m_nlist half_engine) 0)
   /\ (Qsum (m_pe (fst (computeForces_run 0 half_engine)))
       == 1 * listed_pair_energy 0 half_engine)%Q)
  /\ (outputs_sized trivial_engine
      /\ valid_neighbours 2 (getList (m_nlist trivial_engine) 0)
      /\ (Qsum (m_pe (fst (computeForces_run 0 trivial_engine)))
          == (1 # 2) * listed_pair_energy 0 trivial_engine)%Q).
Proof.
  assert (H2 : outputs_sized half_engine) by (repeat split; reflexivity).
  assert (H3 : valid_neighbours 2 (getList (m_nlist half_engine) 0))
    by (unfold valid_neighbours; cbn; repeat constructor).
  assert (F2 : outputs_sized trivial_engine) by (repeat split; reflexivity).
  assert (F3 : valid_neighbours 2 (getList (m_nlist trivial_engine) 0))
    by (unfold valid_neighbours; cbn; repeat constructor).
  destruct (summed_energy_counts_listed_pairs 0 half_engine H2 H3)
    as (Hh & _).
  destruct (summed_energy_counts_listed_pairs 0 trivial_engine F2 F3)
    as (Hf & _).
  split.
  - split; [exact H2|]. split; [exact H3|exact Hh].
  - split; [exact F2|]. split; [exact F3|exact Hf].
Defined.

Lemma computeForces_forgets_previous_outputs_witness :
  outputs_sized half_engine
  /\ outputs_sized
       (set_m_force (mkForceCompute [7; 7] [7; 7] [7; 7] [7; 7] [7; 7])%Q
          half_engine)
  /\ computeForces_run 0
       (set_m_force (mkForceCompute [7; 7] [7; 7] [7; 7] [7; 7] [7; 7])%Q
          half_engine)
     = computeForces_run 0 half_engine.
Proof.
  assert (H1 : outputs_sized half_engine) by (repeat split; reflexivity).
  assert (H2 : outputs_sized
       (set_m_force (mkForceCompute [7; 7] [7; 7] [7; 7] [7; 7] [7; 7])%Q
          half_engine)) by (repeat split; reflexivity).
  destruct (computeForces_forgets_previous_outputs 0 half_engine
              (mkForceCompute [7; 7] [7; 7] [7; 7] [7; 7] [7; 7])%Q H1 H2)
    as (Hsame & _).
  split; [exact H1|]. split; [exact H2|exact Hsame].
Defined.

Lemma no_pair_within_cutoff_gives_zero_witness :
  outputs_sized far_engine
  /\ beyond_cutoff_everywhere 0 far_engine
  /\ computeForces_run 0 far_engine = (zero_outputs 2, []).
Proof.
  assert (H1 : outputs_sized far_engine) by (repeat split; reflexivity).
  assert (H2 : beyond_cutoff_everywhere 0 far_engine)
    by (unfold beyond_cutoff_everywhere; cbn; repeat constructor).
  split; [exact H1|]. split; [exact H2|].
  exact (no_pair_within_cutoff_gives_zero 0 far_engine H1 H2).
Defined.

Lemma onset_only_matters_in_xplor_mode_witness :
  m_shift_mode trivial_engine <> xplor
  /\ computeForces_run 0 (exec (setRon 0 0 1) trivial_engine)
     = computeForces_run 0 trivial_engine.
Proof.
  assert (H1 : m_shift_mode trivial_engine <> xplor) by discriminate.
  destruct (onset_only_matters_in_xplor_mode 0 trivial_engine 0 0 1 H1)
    as (Hsame & _).
  split; [exact H1|exact Hsame].
Defined.

Lemma xplor_with_late_onset_is_shift_witness :
  m_shift_mode (xplor_engine 3) = xplor
  /\ (get_rcutsq (xplor_engine 3) 0 0 < get_ronsq (xplor_engine 3) 0 0)%Q
  /\ pair_body (xplor_engine 3) false (two_particles (3 # 2) 0 0 0)
       (centred_box 5) (3 # 2) 0 0 0 0 0 entry_state 1
     = pair_body (set_m_shift_mode shift (xplor_engine 3)) false
         (two_particles (3 # 2) 0 0 0) (centred_box 5) (3 # 2) 0 0 0 0 0
         entry_state 1.
Proof.
  assert (H1 : m_shift_mode (xplor_engine 3) = xplor) by reflexivity.
  assert (H2 : (get_rcutsq (xplor_engine 3) 0 0
                < get_ronsq (xplor_engine 3) 0 0)%Q) by reflexivity.
  destruct (xplor_with_late_onset_is_shift (xplor_engine 3) false
              (two_particles (3 # 2) 0 0 0) (centred_box 5) (3 # 2) 0 0 0 0 0
              entry_state 1 H1) as (Hshift & _).
  split; [exact H1|]. split; [exact H2|exact (Hshift H2)].
Defined.

Lemma totalEnergy_of_silent_potential_witness :
  (forall box type_i r_i q_i charge_i,
     ExternalPotential.particleEnergy ExternalPotential.plane_field
       box type_i r_i q_i charge_i false = 0%Q)
  /\ ExternalPotential.totalEnergy ExternalPotential.plane_field
       (ExternalPotential.one_particle 2 3) false = 0%Q
  /\ ExternalPotential.totalEnergy ExternalPotential.plane_field
       (ExternalPotential.one_particle 2 3) true = (0 + 2 * 2 * 3)%Q.
Proof.
  assert (H1 : forall box type_i r_i q_i charge_i,
     ExternalPotential.particleEnergy ExternalPotential.plane_field
       box type_i r_i q_i charge_i false = 0%Q) by reflexivity.
  destruct (totalEnergy_of_silent_potential
              (MA := ExternalPotential.plain_math)) as (_ & Hsilent).
  split; [exact H1|]. split; [|reflexivity].
  exact (Hsilent ExternalPotential.plane_field
           (ExternalPotential.one_particle 2 3) H1).
Defined.

Lemma totalEnergy_of_joined_particles_witness :
  ExternalPotential.arrays_sized (ExternalPotential.one_particle 2 3)
  /\ ExternalPotential.getGlobalBox (ExternalPotential.one_particle 1 1)
     = ExternalPotential.getGlobalBox (ExternalPotential.one_particle 2 3)
  /\ (ExternalPotential.totalEnergy ExternalPotential.plane_field
        (ExternalPotential.join (ExternalPotential.one_particle 2 3)
           (ExternalPotential.one_particle 1 1)) true
      == ExternalPotential.totalEnergy ExternalPotential.plane_field
           (ExternalPotential.one_particle 2 3) true
         + ExternalPotential.totalEnergy ExternalPotential.plane_field
             (ExternalPotential.one_particle 1 1) true)%Q.
Proof.
  assert (H1 : ExternalPotential.arrays_sized
                 (ExternalPotential.one_particle 2 3))
    by (repeat split; reflexivity).
  assert (H2 : ExternalPotential.getGlobalBox
                 (ExternalPotential.one_particle 1 1)
               = ExternalPotential.getGlobalBox
                   (ExternalPotential.one_particle 2 3)) by reflexivity.
  split; [exact H1|]. split; [exact H2|].
  exact (totalEnergy_of_joined_particles ExternalPotential.plane_field
           (ExternalPotential.one_particle 2 3)
           (ExternalPotential.one_particle 1 1) true H1 H2).
Defined.

Lemma full_mode_outputs_are_local_witness :
  getStorageMode (m_nlist trivial_engine) = full
  /\ outputs_sized trivial_engine
  /\ (0 < Arrays.nparticles (acquireReadOnly (m_pdata trivial_engine)))%nat
  /\ m_fx (fst (computeForces_run 0 trivial_engine)) !!! 0%nat
     = (0 + (0 + 1 * 2))%Q
  /\ m_pe (fst (computeForces_run 0 trivial_engine)) !!! 0%nat
     = (0 + (0 + -1 * (1 # 2)))%Q.
Proof.
  assert (H1 : getStorageMode (m_nlist trivial_engine) = full)
    by reflexivity.
  assert (H2 : outputs_sized trivial_engine) by (repeat split; reflexivity).
  assert (H3 : (0 < Arrays.nparticles
                      (acquireReadOnly (m_pdata trivial_engine)))%nat)
    by (simpl; lia).
  destruct (full_mode_outputs_are_local 0 trivial_engine 0 H1 H2 H3)
    as (Hx & _ & _ & Hp & _).
  split; [exact H1|]. split; [exact H2|]. split; [exact H3|].
  split; [exact Hx|exact Hp].
Defined.

(** * Signs and zeros of the cutoff *)

Section CutoffEdge.
Context `{EV : evaluator}.

Lemma rsq_of_nonneg (d : separation) : (0 <= rsq_of d)%Q.
Proof. unfold rsq_of. nra. Qed.

(** X11.  The setters store squares, so a cutoff or an onset and its
    negation configure the engine identically.  A type pair whose stored
    squared cutoff is zero (or below) is switched off: the loop skips every
    pair of it, at any separation, zero included. *)
Theorem cutoff_sign_is_irrelevant_and_zero_switches_off
  (self : PotentialPair) (a b : nat) (r : Scalar)
  (third_law : bool) (arrays : Arrays.t) (box : BoxDim)
  (xi yi zi : Scalar) (typei : nat) (di qi : Scalar)
  (st : loop_state) (j : nat) :
  setRcut a b (- r) self = setRcut a b r self
  /\ setRon a b (- r) self = setRon a b r self
  /\ ((get_rcutsq self typei (Arrays.type arrays !!! j) <= 0)%Q ->
      pair_body self third_law arrays box xi yi zi typei di qi st j = st).
Proof.
  split; [|split].
  - unfold setRcut. by rewrite Qopp_square.
  - unfold setRon. by rewrite Qopp_square.
  - intros Hoff. unfold pair_body.
    match goal with |- context [Scalar_lt (rsq_of ?d) ?c] =>
      pose proof (rsq_of_nonneg d) as Hpos;
      assert (Hskip : Scalar_lt (rsq_of d) c = false)
        by (apply Scalar_lt_false; lra)
    end.
    by rewrite Hskip.
Qed.

End CutoffEdge.

Lemma cutoff_sign_is_irrelevant_and_zero_switches_off_witness :
  setRcut 0 0 (- 2) three_types = setRcut 0 0 2 three_types
  /\ (get_rcutsq off_engine 0 0 <= 0)%Q
  /\ pair_body off_engine true (two_particles 0 0 0 0) (centred_box 5)
       0 0 0 0 0 0 entry_state 1
     = entry_state.
Proof.
  assert (H1 : (get_rcutsq off_engine 0 0 <= 0)%Q)
    by (vm_compute; discriminate).
  destruct (cutoff_sign_is_irrelevant_and_zero_switches_off three_types 0 0 2
              true (two_particles 0 0 0 0) (centred_box 5) 0 0 0 0 0 0
              entry_state 1) as (Hsign & _).
  destruct (cutoff_sign_is_irrelevant_and_zero_switches_off off_engine 0 0 2
              true (two_particles 0 0 0 0) (centred_box 5) 0 0 0 0 0 0
              entry_state 1) as (_ & _ & Hoff).
  split; [exact Hsign|]. split; [exact H1|exact (Hoff H1)].
Defined.

(** * XPLOR smoothing inside the loop *)

Section XplorInTheLoop.
Context `{EV : evaluator}.


End XplorInTheLoop.


(** * Runs in double precision *)

Section Binary64Runs.
Import PrimFloat.
Local Open Scope float_scope.


(** C10 as stated fails.  With cutoff 2^-200 and onset 0 and the trivial
    law, a pair at separation 2^-201 satisfies [ronsq <= rsq] and
    [rsq < rcutsq], with [ronsq < rcutsq]; the product
    [(rcutsq - ronsq)^3], 2^-1200, underflows to zero in double precision,
    the loop divides 1 by it and the force factor and the energy of the
    pair come out as NaN. *)
Lemma xplor_denominator_underflows_to_zero :
  (Binary64.stored_square 0 <=? Binary64.rsq_of 0x1p-201 0 0) = true
  /\ (Binary64.rsq_of 0x1p-201 0 0 <? Binary64.stored_square 0x1p-200) = true
  /\ (Binary64.stored_square 0 <? Binary64.stored_square 0x1p-200) = true
  /\ Binary64.xplor_denom (Binary64.stored_square 0x1p-200)
       (Binary64.stored_square 0) = 0
  /\ 1 / Binary64.xplor_denom (Binary64.stored_square 0x1p-200)
           (Binary64.stored_square 0) = infinity
  /\ Binary64.pair_kernel xplor 0x1p-201 0 0 (Binary64.stored_square 0x1p-200)
       (Binary64.stored_square 0) Binary64.trivial_law
     = Some (Binary64.mkPairResult nan nan [0]).
Proof. repeat split; vm_compute; reflexivity. Qed.

End Binary64Runs.
